(** * PosesTracker: a registry of per-body pose trackers with expiry

    Shallow embedding of [src/ml/pose/PosesTracker.js].

    The JavaScript class keeps a [Map] from a string key to a mutable
    [PoseTracker] object, dispatches [added] / [expired] events on an
    [EventTarget], and exposes generator methods over the map.  Here:

    - the [Map] is an association list in insertion order with unique keys
      (a JavaScript [Map] iterates in insertion order);
    - [PoseTracker] objects live in a store and the map holds references to
      them, because the same object is reachable from the map, from event
      payloads and from the arrays copied by the generators;
    - methods that mutate or throw run in a small state-and-exception monad;
    - the clock read by [PoseTracker] is an explicit argument [now]
      (milliseconds), read once per synchronous call;
    - generators are resumable state machines driven by [next]. *)

From Stdlib Require Import ZArith QArith String Ascii List Lia DecimalString.
From Stdlib Require Import Sorting.Sorted Sorting.Permutation.
From Stdlib Require Import DecimalZ DecimalPos.
From Stdlib Require Import Floats.SpecFloat.
From stdpp Require Import base relations list strings.

Local Open Scope Z_scope.
Local Open Scope string_scope.
Local Open Scope list_scope.

(** ** JavaScript values *)

(** A value that may be [undefined] or [null]. *)
Inductive Nullable (A : Type) : Type :=
| undefined
| null
| value (a : A).
Arguments undefined {A}.
Arguments null {A}.
Arguments value {A} a.

Definition is_undefined {A} (v : Nullable A) : bool :=
  match v with undefined => true | _ => false end.

(** [a ?? b] *)
Definition nullish {A} (v : Nullable A) (d : A) : A :=
  match v with value a => a | _ => d end.

(** A pose id as found in [pose.id]: a number (an integer in the safe
    range, printed in plain decimal) or a string. *)
Inductive IdVal : Type :=
| IdNum (n : Z)
| IdStr (s : string).

(** [Number.prototype.toString] on an integer, [String.prototype.toString]. *)
Definition toString (v : IdVal) : string :=
  match v with
  | IdNum n => NilZero.string_of_int (Z.to_int n)
  | IdStr s => s
  end.

(** String conversion applied by [from + `-`]. *)
Definition string_of_from (from : Nullable string) : string :=
  match from with
  | undefined => "undefined"
  | null => "null"
  | value s => s
  end.

(** ** Poses *)

(** A JavaScript number is an IEEE 754 binary64 value.  Its arithmetic is
    the one the Standard Library defines on [spec_float], at precision 53
    and maximal exponent 1024: each operation rounds to nearest, ties to
    even, and overflows to an infinity. *)
Module Double.

Definition prec : Z := 53.
Definition emax : Z := 1024.

(** [a + b], [a - b], [a * b], [a / b] *)
Definition add : spec_float -> spec_float -> spec_float := SFadd prec emax.
Definition sub : spec_float -> spec_float -> spec_float := SFsub prec emax.
Definition mul : spec_float -> spec_float -> spec_float := SFmul prec emax.
Definition div : spec_float -> spec_float -> spec_float := SFdiv prec emax.

(** The number an integer literal denotes. *)
Definition of_Z (z : Z) : spec_float := binary_normalize prec emax z 0 false.

(** The number 2^e. *)
Definition pow2 (e : Z) : spec_float := binary_normalize prec emax 1 e false.

(** The literal [0.5]. *)
Definition half : spec_float := pow2 (-1).

(** The real number a finite number is; none for the infinities and NaN. *)
Definition value (d : spec_float) : option Q :=
  match d with
  | S754_zero _ => Some 0%Q
  | S754_finite s m e =>
      Some (if s then (- (inject_Z (Z.pos m) * 2 ^ e))%Q
            else (inject_Z (Z.pos m) * 2 ^ e)%Q)
  | _ => None
  end.

End Double.

Module Points.

Record Point : Type := { x : spec_float; y : spec_float }.

(** Modelled from the spec: [Points.sum] of [ixfx/geometry.js] is not
    among the sources; the spec has the two midpoints summed
    componentwise. *)
Definition sum (p q : Point) : Point :=
  {| x := Double.add (x p) (x q); y := Double.add (y p) (y q) |}.

(** Modelled from the spec: [Points.divide(pt, dx, dy)] of
    [ixfx/geometry.js] is not among the sources; the spec has the sum
    divided by 2 to obtain the average point. *)
Definition divide (p : Point) (dx dy : spec_float) : Point :=
  {| x := Double.div (x p) dx; y := Double.div (y p) dy |}.

End Points.

Module Lines.

(** [Lines.Line]: the object [{a, b}] frozen by [lineBetween]. *)
Record Line : Type := { a : Points.Point; b : Points.Point }.

(** Modelled from the spec: [Lines.interpolate(amount, line)] of
    [ixfx/geometry.js] is not among the sources; the spec uses it at 0.5
    for the midpoint of the segment.  It is the point at [amount] of the
    way from [a] to [b], computed on numbers. *)
Definition along (amount from to : spec_float) : spec_float :=
  Double.add (Double.mul (Double.sub (Double.of_Z 1) amount) from)
             (Double.mul amount to).

Definition interpolate (amount : spec_float) (l : Line) : Points.Point :=
  {| Points.x := along amount (Points.x (a l)) (Points.x (b l));
     Points.y := along amount (Points.y (a l)) (Points.y (b l)) |}.

End Lines.

Record Keypoint : Type := { name : string; pt : Points.Point }.

Record Pose : Type := { id : Nullable IdVal; keypoints : list Keypoint }.

(** ** Options *)

Record PosesTrackerOptions : Type := {
  maxAgeMs : Z;
  resetAfterSamples : Z;
  sampleLimit : Z;
  storeIntermediate : bool
}.

(** [Partial<PosesTrackerOptions>] *)
Record PartialOptions : Type := {
  p_maxAgeMs : option Z;
  p_resetAfterSamples : option Z;
  p_sampleLimit : option Z;
  p_storeIntermediate : option bool
}.

Definition no_options : PartialOptions :=
  {| p_maxAgeMs := None; p_resetAfterSamples := None;
     p_sampleLimit := None; p_storeIntermediate := None |}.

(** The object spread of the constructor: defaults, then [...options]. *)
Definition spread_options (o : PartialOptions) : PosesTrackerOptions :=
  {| maxAgeMs := default 10000 (p_maxAgeMs o);
     resetAfterSamples := default 0 (p_resetAfterSamples o);
     sampleLimit := default 100 (p_sampleLimit o);
     storeIntermediate := default false (p_storeIntermediate o) |}.

(** ** PoseTracker *)

Module PoseTracker.

(** Modelled from the spec: the class [PoseTracker] of
    [./PoseTracker.js] is not among the sources.  The spec gives its
    contract: immutable [fromId], [poseId] and [guid] (the concatenation
    of [fromId], the separator and [poseId]), [last] (the most recently
    observed pose) and [elapsed] (milliseconds since the most recent
    [seen], computed on read).  [seenAt] is the time stamp [elapsed] is
    computed from. *)
Record t : Type := {
  fromId : Nullable string;
  poseId : string;
  guid : string;
  last : option Pose;
  seenAt : Z
}.

(** Modelled from the spec: [new PoseTracker(fromId, poseId, options)]. *)
Definition new (from : Nullable string) (pid : string)
    (_ : PosesTrackerOptions) : t :=
  {| fromId := from; poseId := pid;
     guid := string_of_from from +:+ "-" +:+ pid;
     last := None; seenAt := 0 |}.

(** Modelled from the spec: [tracker.seen(pose)] records the pose and
    restarts the age. *)
Definition seen (now : Z) (pose : Pose) (tr : t) : t :=
  {| fromId := fromId tr; poseId := poseId tr; guid := guid tr;
     last := Some pose; seenAt := now |}.

(** Modelled from the spec: the getter [elapsed]. *)
Definition elapsed (now : Z) (tr : t) : Z := now - seenAt tr.

End PoseTracker.

(** ** The registry object *)

(** A reference to a [PoseTracker] object in the store: its position. *)
Abbreviation ref := nat (only parsing).

Inductive Event : Type :=
| added (detail : ref)
| expired (detail : ref).

(** Instance state of [PosesTracker], together with the store of the
    [PoseTracker] objects it created.  [events] lists the events dispatched
    on [this.events], oldest first. *)
Record PosesTracker : Type := {
  data : list (string * ref);
  options : PosesTrackerOptions;
  events : list Event;
  store : list PoseTracker.t
}.

Definition with_data (d : list (string * ref)) (st : PosesTracker) : PosesTracker :=
  {| data := d; options := options st; events := events st; store := store st |}.

Definition with_events (e : list Event) (st : PosesTracker) : PosesTracker :=
  {| data := data st; options := options st; events := e; store := store st |}.

Definition with_store (h : list PoseTracker.t) (st : PosesTracker) : PosesTracker :=
  {| data := data st; options := options st; events := events st; store := h |}.

(** ** [Map] operations on the association list *)

Module JsMap.

Fixpoint get {V} (k : string) (m : list (string * V)) : option V :=
  match m with
  | [] => None
  | (k', v) :: m' => if String.eqb k k' then Some v else get k m'
  end.

(** [Map.prototype.set]: an existing key keeps its position. *)
Fixpoint set {V} (k : string) (v : V) (m : list (string * V)) : list (string * V) :=
  match m with
  | [] => [(k, v)]
  | (k', v') :: m' =>
      if String.eqb k k' then (k, v) :: m' else (k', v') :: set k v m'
  end.

Fixpoint delete {V} (k : string) (m : list (string * V)) : list (string * V) :=
  match m with
  | [] => []
  | (k', v') :: m' =>
      if String.eqb k k' then m' else (k', v') :: delete k m'
  end.

Definition keys {V} (m : list (string * V)) : list string := map fst m.
Definition values {V} (m : list (string * V)) : list V := map snd m.
Definition size {V} (m : list (string * V)) : nat := length m.

End JsMap.

(** ** State and exceptions *)

Inductive Error : Type :=
| ErrorMsg (message : string)   (* [throw new Error(message)] *)
| TypeError.                    (* property read on [null] *)

Inductive Outcome (A : Type) : Type :=
| Returned (a : A)
| Threw (e : Error).
Arguments Returned {A} a.
Arguments Threw {A} e.

(** A method body: from the state before to the outcome and the state
    after; a throwing body leaves the state as it was when it threw. *)
Definition M (A : Type) : Type := PosesTracker -> Outcome A * PosesTracker.

Definition ret {A} (a : A) : M A := fun st => (Returned a, st).
Definition throw {A} (e : Error) : M A := fun st => (Threw e, st).
Definition bind {A B} (m : M A) (k : A -> M B) : M B :=
  fun st =>
    match m st with
    | (Returned a, st') => k a st'
    | (Threw e, st') => (Threw e, st')
    end.
Definition gets {A} (f : PosesTracker -> A) : M A := fun st => (Returned (f st), st).
Definition modify (f : PosesTracker -> PosesTracker) : M unit :=
  fun st => (Returned tt, f st).
Definition when (b : bool) (m : M unit) : M unit := if b then m else ret tt.

Declare Scope js_scope.
Delimit Scope js_scope with js.
Notation "x <- m ;; k" := (bind m (fun x => k))
  (at level 100, m at next level, right associativity) : js_scope.
Notation "m ;; k" := (bind m (fun _ => k))
  (at level 100, right associativity) : js_scope.

(** ** Store primitives *)

(** [new PoseTracker(...)]: a fresh object at the end of the store. *)
Definition alloc (tr : PoseTracker.t) : M ref :=
  fun st => (Returned (length (store st)), with_store (store st ++ [tr]) st).

(** In-place update of the object behind a reference. *)
Definition update (r : ref) (f : PoseTracker.t -> PoseTracker.t) : M unit :=
  modify (fun st => with_store (alter f r (store st)) st).

Definition deref (st : PosesTracker) (r : ref) : option PoseTracker.t :=
  store st !! r.

(** [this.events.dispatchEvent(new CustomEvent(kind, {detail}))] *)
Definition dispatchEvent (e : Event) : M unit :=
  modify (fun st => with_events (events st ++ [e]) st).

(** ** Methods *)

(** [constructor(options = {})]; the interval callback is [tick] below. *)
Definition constructor (o : PartialOptions) : PosesTracker :=
  {| data := []; options := spread_options o; events := []; store := [] |}.

(** [seen(from, pose)], lines 174-189.  [from] is a string, [null] or
    [undefined]; [pose] is a pose object, [null] or [undefined]. *)
Definition seen (now : Z) (from : Nullable string) (pose : Nullable Pose) : M string :=
  (when (is_undefined from) (throw (ErrorMsg "Parameter 'from' is undefined")) ;;
   when (is_undefined pose) (throw (ErrorMsg "Parameter 'pose' is undefined")) ;;
   p <- match pose with value p => ret p | _ => throw TypeError end ;;
   let pid := toString (nullish (id p) (IdNum 0)) in
   let nsId := string_of_from from +:+ "-" +:+ pid in
   tp <- gets (fun st => JsMap.get nsId (data st)) ;;
   match tp with
   | None =>
       opts <- gets options ;;
       tp <- alloc (PoseTracker.new from pid opts) ;;
       modify (fun st => with_data (JsMap.set nsId tp (data st)) st) ;;
       update tp (PoseTracker.seen now p) ;;
       dispatchEvent (added tp)
   | Some tp =>
       update tp (PoseTracker.seen now p)
   end ;;
   ret nsId)%js.

(** [get size()] *)
Definition size (st : PosesTracker) : nat := JsMap.size (data st).

(** [clear()] *)
Definition clear : M unit := modify (with_data []).

(** [for (const entry of entries) body(entry)] *)
Fixpoint for_of {A} (entries : list A) (body : A -> M unit) : M unit :=
  match entries with
  | [] => ret tt
  | entry :: rest => (body entry ;; for_of rest body)%js
  end.

(** [tracker.elapsed] read through a reference at time [now].  The
    references the map holds always lead to an object (see [wf]); the
    default stands for the others. *)
Definition elapsed_of (now : Z) (st : PosesTracker) (r : ref) : Z :=
  from_option (PoseTracker.elapsed now) 0 (deref st r).

(** [tracker.last] read through a reference; [None] is [undefined]. *)
Definition last_of (st : PosesTracker) (r : ref) : option Pose :=
  deref st r ≫= PoseTracker.last.

(** [entry => entry[1].elapsed > this.#options.maxAgeMs] *)
Definition is_expired (now : Z) (st : PosesTracker) (entry : string * ref) : bool :=
  (elapsed_of now st entry.2 >? maxAgeMs (options st))%Z.

(** The callback given to [setInterval], lines 46-53: one scan at [now]. *)
Definition tick (now : Z) : M unit :=
  (st <- gets (fun st => st) ;;
   let expiredEntries := List.filter (is_expired now st) (data st) in
   for_of expiredEntries (fun entry =>
     modify (fun st => with_data (JsMap.delete entry.1 (data st)) st) ;;
     dispatchEvent (expired entry.2)))%js.

(** [getTrackerByGuid(id)] *)
Definition getTrackerByGuid (gid : string) (st : PosesTracker) : option ref :=
  JsMap.get gid (data st).

(** [getValueByGuid(id)]: [this.#data.get(id)?.last] *)
Definition getValueByGuid (gid : string) (st : PosesTracker) : option Pose :=
  match JsMap.get gid (data st) with
  | None => None
  | Some r => last_of st r
  end.

(** [getTrackerByPoseId(id)]: first entry whose [poseId] is [id]. *)
Definition getTrackerByPoseId (pid : string) (st : PosesTracker) : option ref :=
  List.find
    (fun r => from_option (fun tr => String.eqb (PoseTracker.poseId tr) pid) false (deref st r))
    (JsMap.values (data st)).

(** [getValueByPoseId(id)] *)
Definition getValueByPoseId (pid : string) (st : PosesTracker) : option Pose :=
  getTrackerByPoseId pid st ≫= last_of st.

(** ** [Array.prototype.sort] with a comparator

    ECMAScript requires the sort to be stable; with a consistent comparator
    the result is the one stable sorted arrangement, which insertion of each
    element before the first one it does not exceed produces. *)
Section Sort.
Context {A : Type} (cmp : A -> A -> Z).

Fixpoint sort_insert (a : A) (l : list A) : list A :=
  match l with
  | [] => [a]
  | b :: l' => if (cmp a b <=? 0)%Z then a :: b :: l' else b :: sort_insert a l'
  end.

Fixpoint array_sort (l : list A) : list A :=
  match l with
  | [] => []
  | a :: l' => sort_insert a (array_sort l')
  end.
End Sort.

(** [(a,b) => a.elapsed - b.elapsed] *)
Definition by_elapsed (now : Z) (st : PosesTracker) (a b : ref) : Z :=
  elapsed_of now st a - elapsed_of now st b.

(** ** Generators

    A generator function runs none of its body when called: the body starts
    at the first [next()].  Every generator below first copies
    [this.#data.values()] into an array and then walks that array, so its
    state after the first [next()] is the part of the array still to walk. *)

Inductive Generator (A : Type) : Type :=
| SuspendedStart
| SuspendedYield (rest : list A)
| Completed.
Arguments SuspendedStart {A}.
Arguments SuspendedYield {A} rest.
Arguments Completed {A}.

Inductive IteratorResult (A : Type) : Type :=
| yielded (v : A)
| done.
Arguments yielded {A} v.
Arguments done {A}.

(** [yield* array.values()] from the position reached. *)
Definition yield_star {A} (rest : list A) : IteratorResult A * Generator A :=
  match rest with
  | [] => (done, Completed)
  | a :: rest' => (yielded a, SuspendedYield rest')
  end.

(** [getTrackers().next()], lines 67-70. *)
Definition getTrackers_next (g : Generator ref) (st : PosesTracker)
    : IteratorResult ref * Generator ref :=
  match g with
  | SuspendedStart => yield_star (JsMap.values (data st))
  | SuspendedYield rest => yield_star rest
  | Completed => (done, Completed)
  end.

(** [getTrackersByAge().next()], lines 61-65; the world of a pull is the
    clock and the state. *)
Definition getTrackersByAge_next (g : Generator ref) (w : Z * PosesTracker)
    : IteratorResult ref * Generator ref :=
  match g with
  | SuspendedStart =>
      yield_star (array_sort (by_elapsed w.1 w.2) (JsMap.values (data w.2)))
  | SuspendedYield rest => yield_star rest
  | Completed => (done, Completed)
  end.

(** [getValuesByAge().next()], lines 76-80: pulls the inner
    [getTrackersByAge()] and yields [tracker.last] as it is then. *)
Definition getValuesByAge_next (g : Generator ref) (w : Z * PosesTracker)
    : IteratorResult (option Pose) * Generator ref :=
  match getTrackersByAge_next g w with
  | (yielded r, g') => (yielded (last_of w.2 r), g')
  | (done, g') => (done, g')
  end.

(** [getValues().next()], lines 82-87. *)
Definition getValues_next (g : Generator ref) (st : PosesTracker)
    : IteratorResult (option Pose) * Generator ref :=
  match getTrackers_next g st with
  | (yielded r, g') => (yielded (last_of st r), g')
  | (done, g') => (done, g')
  end.

(** [===] on sender ids. *)
Definition strict_eq (a b : Nullable string) : bool :=
  match a, b with
  | undefined, undefined => true
  | null, null => true
  | value s, value s' => String.eqb s s'
  | _, _ => false
  end.

(** [tracker.fromId] read through a reference. *)
Definition fromId_of (st : PosesTracker) (r : ref) : Nullable string :=
  from_option PoseTracker.fromId undefined (deref st r).

(** The loop of [getFromSender] from the position reached, up to its next
    [yield]. *)
Fixpoint fromSender_loop (senderId : Nullable string) (st : PosesTracker)
    (rest : list ref) : IteratorResult ref * Generator ref :=
  match rest with
  | [] => (done, Completed)
  | r :: rest' =>
      if strict_eq (fromId_of st r) senderId then (yielded r, SuspendedYield rest')
      else fromSender_loop senderId st rest'
  end.

(** [getFromSender(senderId).next()], lines 93-98. *)
Definition getFromSender_next (senderId : Nullable string) (g : Generator ref)
    (st : PosesTracker) : IteratorResult ref * Generator ref :=
  match g with
  | SuspendedStart => fromSender_loop senderId st (JsMap.values (data st))
  | SuspendedYield rest => fromSender_loop senderId st rest
  | Completed => (done, Completed)
  end.

(** [Set.prototype.add] on a set kept in insertion order. *)
Definition set_add (v : Nullable string) (s : list (Nullable string))
    : list (Nullable string) :=
  if existsb (strict_eq v) s then s else s ++ [v].

(** [getSenderIds().next()], lines 110-117. *)
Definition getSenderIds_next (g : Generator (Nullable string)) (st : PosesTracker)
    : IteratorResult (Nullable string) * Generator (Nullable string) :=
  match g with
  | SuspendedStart =>
      yield_star
        (fold_left (fun s r => set_add (fromId_of st r) s) (JsMap.values (data st)) [])
  | SuspendedYield rest => yield_star rest
  | Completed => (done, Completed)
  end.

(** The elements a consumer receives when it calls [next()] once in each of
    the given worlds, in turn, until the generator is done.  Anything may
    have happened to the registry between two worlds. *)
Fixpoint consume {G W A} (next : G -> W -> IteratorResult A * G) (g : G)
    (worlds : list W) : list A :=
  match worlds with
  | [] => []
  | w :: ws =>
      match next g w with
      | (yielded a, g') => a :: consume next g' ws
      | (done, _) => []
      end
  end.

(** Consumption without anything happening in between: [pulls] calls of
    [next()] in one world. *)
Definition drain {G W A} (next : G -> W -> IteratorResult A * G) (g : G)
    (w : W) (pulls : nat) : list A :=
  consume next g (replicate pulls w).

(** [getGuids()], lines 147-151, consumed without anything happening in
    between: [t.guid] of each value of the map, in map order. *)
Definition getGuids (st : PosesTracker) : list string :=
  omap (fun r => PoseTracker.guid <$> deref st r) (JsMap.values (data st)).

(** ** Geometry helpers *)

Module Coco.

(** Modelled from the spec: [Coco.getKeypoint(pose, name)] of
    [../lib/Coco.js] is not among the sources; the spec describes it as
    the lookup of a keypoint of the pose by name, absent when the pose
    has none of that name. *)
Definition getKeypoint (pose : Pose) (nm : string) : option Points.Point :=
  pt <$> List.find (fun k => String.eqb (name k) nm) (keypoints pose).

End Coco.

Section Geometry.
(** The keypoint lookup the helpers are given; [None] is [undefined]. *)
Variable getKeypoint : Pose -> string -> option Points.Point.

(** [lineBetween(pose, a, b)], lines 206-215. *)
Definition lineBetween (pose : Pose) (a b : string) : option Lines.Line :=
  let ptA := getKeypoint pose a in
  let ptB := getKeypoint pose b in
  match ptA with
  | None => None
  | Some ptA =>
      match ptB with
      | None => None
      | Some ptB => Some {| Lines.a := ptA; Lines.b := ptB |}
      end
  end.

(** [roughCenter(pose)], lines 222-237. *)
Definition roughCenter (pose : Pose) : option Points.Point :=
  let a := lineBetween pose "left_shoulder" "right_hip" in
  let b := lineBetween pose "right_shoulder" "left_hip" in
  match a with
  | None => None
  | Some a =>
      match b with
      | None => None
      | Some b =>
          let halfA := Lines.interpolate Double.half a in
          let halfB := Lines.interpolate Double.half b in
          let sum := Points.sum halfA halfB in
          Some (Points.divide sum (Double.of_Z 2) (Double.of_Z 2))
      end
  end.
End Geometry.

(** ** Vocabulary of the statements *)

(** [(pose.id ?? 0).toString()] *)
Definition poseIdOf (p : Pose) : string := toString (nullish (id p) (IdNum 0)).

(** [from + `-` + id] *)
Definition nsIdOf (from : Nullable string) (pid : string) : string :=
  string_of_from from +:+ "-" +:+ pid.

(** The separator does not occur in the string. *)
Fixpoint sep_free (s : string) : bool :=
  match s with
  | EmptyString => true
  | String c s' => negb (Ascii.eqb c "-") && sep_free s'
  end.

(** The ids a pose detector gives: none, or a non-negative integer. *)
Definition detector_id (i : Nullable IdVal) : bool :=
  match i with
  | value (IdNum n) => (0 <=? n)%Z
  | value (IdStr _) => false
  | _ => true
  end.

(** One call [seen(from, pose)] made at time [c_now]. *)
Record Call : Type := {
  c_now : Z;
  c_from : Nullable string;
  c_pose : Nullable Pose
}.

(** The state after a call, whether it returned or threw. *)
Definition after_seen (st : PosesTracker) (c : Call) : PosesTracker :=
  (seen (c_now c) (c_from c) (c_pose c) st).2.

(** The state after a sequence of calls on a new [PosesTracker]. *)
Definition seen_all (o : PartialOptions) (calls : list Call) : PosesTracker :=
  fold_left after_seen calls (constructor o).

(** The [(fromId, poseId)] pair a call brings, both as the strings they
    print to; none when the arguments are rejected. *)
Definition observed (c : Call) : option (string * string) :=
  match c_from c, c_pose c with
  | undefined, _ => None
  | from, value p => Some (string_of_from from, poseIdOf p)
  | _, _ => None
  end.

Definition guid_of_pair (fp : string * string) : string := fp.1 +:+ "-" +:+ fp.2.

(** What can happen to a registry: a call of [seen] that returns, a scan
    of the interval callback, a [clear()]. *)
Inductive step : PosesTracker -> PosesTracker -> Prop :=
| step_seen now from pose st gid st' :
    seen now from pose st = (Returned gid, st') -> step st st'
| step_tick now st : step st (tick now st).2
| step_clear st : step st (clear st).2.

(** The states of a [PosesTracker] during its life. *)
Definition reachable (st : PosesTracker) : Prop :=
  exists o, rtc step (constructor o) st.

(** Representation invariant: the keys of the map are unique, and every
    entry refers to a live tracker whose [guid] is the key and which has
    seen a pose. *)
Record wf (st : PosesTracker) : Prop := {
  wf_keys : NoDup (JsMap.keys (data st));
  wf_entries : forall k r, (k, r) ∈ data st ->
    exists tr, store st !! r = Some tr /\ PoseTracker.guid tr = k /\
               is_Some (PoseTracker.last tr);
  wf_guids : forall r tr, store st !! r = Some tr ->
    PoseTracker.guid tr = nsIdOf (PoseTracker.fromId tr) (PoseTracker.poseId tr)
}.

(** The state [seen] leaves when the key was absent: a new tracker that
    has seen [p], registered last, and an [added] event for it. *)
Definition st_added (now : Z) (from : Nullable string) (p : Pose)
    (st : PosesTracker) : PosesTracker :=
  let r := length (store st) in
  {| data := data st ++ [(nsIdOf from (poseIdOf p), r)];
     options := options st;
     events := events st ++ [added r];
     store := store st ++
       [PoseTracker.seen now p (PoseTracker.new from (poseIdOf p) (options st))] |}.

(** The state [seen] leaves when the key was present: the tracker behind
    [r] has seen [p]. *)
Definition st_updated (now : Z) (p : Pose) (r : ref)
    (st : PosesTracker) : PosesTracker :=
  with_store (alter (PoseTracker.seen now p) r (store st)) st.

(** The state a scan at [now] leaves when the keys of the map are unique:
    the expired entries are gone, and one [expired] event was dispatched
    for each, in map order. *)
Definition st_scanned (now : Z) (st : PosesTracker) : PosesTracker :=
  {| data := List.filter (fun e => negb (is_expired now st e)) (data st);
     options := options st;
     events := events st ++
       map (fun e => expired e.2) (List.filter (is_expired now st) (data st));
     store := store st |}.

(** The order [getTrackersByAge] promises between two trackers at [now]. *)
Definition not_older (now : Z) (st : PosesTracker) (a b : ref) : Prop :=
  (elapsed_of now st a <= elapsed_of now st b)%Z.

(** The successive states a consumer finds the registry in, from [st] on:
    between two pulls any number of calls, scans and clears may happen. *)
Inductive evolution : PosesTracker -> list PosesTracker -> Prop :=
| evolution_nil st : evolution st []
| evolution_cons st w ws :
    rtc step st w -> evolution w ws -> evolution st (w :: ws).

(** ** Sample inputs *)

(** The point with integer coordinates. *)
Definition point_at (px py : Z) : Points.Point :=
  {| Points.x := Double.of_Z px; Points.y := Double.of_Z py |}.

Definition pose_with_id (i : Nullable IdVal) : Pose := {| id := i; keypoints := [] |}.

Definition pose5 : Pose := pose_with_id (value (IdNum 5)).

Definition call (now : Z) (from : string) (i : Z) : Call :=
  {| c_now := now; c_from := value from;
     c_pose := value (pose_with_id (value (IdNum i))) |}.

(** Two calls whose pairs differ and whose keys are both "a--1". *)
Definition colliding_calls : list Call := [call 0 "a-" 1; call 0 "a" (-1)].

(** [seen("cam1", {id: 5})] at 3 ms and [seen("cam2", {id: 5})] at 7 ms on
    a new registry with the default options. *)
Definition two_cameras : PosesTracker :=
  seen_all no_options [call 3 "cam1" 5; call 7 "cam2" 5].

(** A registry with [maxAgeMs: 1000] after [seen("cam1", {id: 5})] at
    0 ms. *)
Definition short_lived : PosesTracker :=
  fold_left after_seen [call 0 "cam1" 5]
    (constructor {| p_maxAgeMs := Some 1000; p_resetAfterSamples := None;
                    p_sampleLimit := None; p_storeIntermediate := None |}).

(** A later pose of the body with id 5, with a keypoint. *)
Definition pose5_later : Pose :=
  {| id := value (IdNum 5);
     keypoints := [{| name := "nose"; pt := point_at 1 2 |}] |}.

(** The sample registry after [seen("cam2", pose5_later)] at 20 ms. *)
Definition two_cameras_later : PosesTracker :=
  (seen 20 (value "cam2") (value pose5_later) two_cameras).2.

(** A pose with the four keypoints of the chest. *)
Definition chest_pose : Pose :=
  {| id := value (IdNum 5);
     keypoints :=
       [ {| name := "left_shoulder"; pt := point_at 4 2 |};
         {| name := "right_shoulder"; pt := point_at 2 2 |};
         {| name := "left_hip"; pt := point_at 4 7 |};
         {| name := "right_hip"; pt := point_at 1 6 |} ] |}.

(** The same pose without its left hip. *)
Definition no_left_hip : Pose :=
  {| id := value (IdNum 5);
     keypoints :=
       [ {| name := "left_shoulder"; pt := point_at 4 2 |};
         {| name := "right_shoulder"; pt := point_at 2 2 |};
         {| name := "right_hip"; pt := point_at 1 6 |} ] |}.

(** The componentwise arithmetic mean of the midpoint of the segment from
    [a] to [b] and the midpoint of the segment from [c] to [d], on real
    numbers. *)
Definition mean_of_midpoints (a b c d : Q) : Q :=
  (((a + b) / 2 + (c + d) / 2) / 2)%Q.

(** The number [r] is finite and is exactly the mean of the midpoints of
    the finite numbers [a], [b] and [c], [d]. *)
Definition is_exact_mean (r a b c d : spec_float) : bool :=
  match Double.value r, Double.value a, Double.value b,
        Double.value c, Double.value d with
  | Some vr, Some va, Some vb, Some vc, Some vd =>
      Qeq_bool vr (mean_of_midpoints va vb vc vd)
  | _, _, _, _, _ => false
  end.


(** No step of [center_coordinate] rounds or overflows: the operands and
    the results are finite, each midpoint is the real midpoint, the sum is
    the real sum and the half is the real half. *)
Definition rounds_nowhere (a b c d : spec_float) : bool :=
  let hA := Lines.along Double.half a b in
  let hB := Lines.along Double.half c d in
  let s := Double.add hA hB in
  match Double.value a, Double.value b, Double.value c, Double.value d with
  | Some va, Some vb, Some vc, Some vd =>
      match Double.value hA, Double.value hB, Double.value s,
            Double.value (Double.div s (Double.of_Z 2)) with
      | Some vhA, Some vhB, Some vs, Some vr =>
          Qeq_bool vhA ((va + vb) / 2) && Qeq_bool vhB ((vc + vd) / 2)
          && Qeq_bool vs (vhA + vhB) && Qeq_bool vr (vs / 2)
      | _, _, _, _ => false
      end
  | _, _, _, _ => false
  end.

(** The point [center] is exactly the mean of the midpoint of [ls]-[rh]
    and the midpoint of [rs]-[lh]. *)
Definition is_center (center ls rh rs lh : Points.Point) : bool :=
  is_exact_mean (Points.x center) (Points.x ls) (Points.x rh) (Points.x rs) (Points.x lh)
  && is_exact_mean (Points.y center) (Points.y ls) (Points.y rh) (Points.y rs) (Points.y lh).



(** A pose with left shoulder at (1, 0), right hip at (2^-60, 0) and the
    other two chest keypoints at the origin. *)
Definition fine_pose : Pose :=
  {| id := value (IdNum 5);
     keypoints :=
       [ {| name := "left_shoulder"; pt := point_at 1 0 |};
         {| name := "right_shoulder"; pt := point_at 0 0 |};
         {| name := "left_hip"; pt := point_at 0 0 |};
         {| name := "right_hip";
            pt := {| Points.x := Double.pow2 (-60); Points.y := Double.of_Z 0 |} |} ] |}.

(** ** Vocabulary of the further properties *)

(** The trackers carried by the [added] events, oldest first. *)
Definition added_details (evs : list Event) : list ref :=
  omap (fun e => match e with added r => Some r | expired _ => None end) evs.

(** The trackers carried by the [expired] events, oldest first. *)
Definition expired_details (evs : list Event) : list ref :=
  omap (fun e => match e with expired r => Some r | added _ => None end) evs.

(** What the registry keeps besides [wf]: the entries of the map hold
    distinct objects of the store; every object of the store was announced
    by one [added] event, in order of creation; no object expired twice,
    and an object that expired is not in the map. *)
Record tidy (st : PosesTracker) : Prop := {
  tidy_refs : NoDup (JsMap.values (data st));
  tidy_live : forall r, r ∈ JsMap.values (data st) -> (r < length (store st))%nat;
  tidy_added : added_details (events st) = seq 0 (length (store st));
  tidy_expired : NoDup (expired_details (events st));
  tidy_gone : forall r, r ∈ expired_details (events st) ->
    (r ∉ JsMap.values (data st)) /\ (r < length (store st))%nat
}.

(** [tracker.poseId] read through a reference. *)
Definition poseId_of (st : PosesTracker) (r : ref) : option string :=
  PoseTracker.poseId <$> deref st r.

(** The sample registry after the scan at 10005 ms, which removes
    "cam1-5". *)
Definition two_cameras_scanned : PosesTracker := (tick 10005 two_cameras).2.

(** The sample registry cleared, then [seen("cam1", {id: 5})] at 30 ms,
    then scanned at 99999 ms. *)
Definition cleared_and_reused : PosesTracker :=
  (tick 99999 (after_seen (clear two_cameras).2 (call 30 "cam1" 5))).2.

(** A pose without an id. *)
Definition pose_no_id : Pose := pose_with_id undefined.

(** [seen("cam1", {id: 0})] at 1 ms on a new registry. *)
Definition camera_zero : PosesTracker := seen_all no_options [call 1 "cam1" 0].

(** ** The drifting-things sketch

    Shallow embedding of the sketch of [src/unnamed/part_002]: a frozen
    [state] replaced by [updateState], things that drift and wrap, and a
    timer that adds a thing while there are fewer than [max].  JavaScript
    numbers are kept abstract: a type [num] with the [+] and the [>] the
    code applies to them.  What [Math.random], [Date.now] and
    [randomElement] give is an argument. *)

Module Things.

Section Sketch.
Context {num : Type} (add : num -> num -> num) (gt : num -> num -> bool).

(** The typedef [Thing], lines 8-13. *)
Record Thing : Type := {
  x : num; y : num; scale : num; msg : string; created : Z
}.

(** The fields of [settings] the functions below read, lines 17-30. *)
Record Settings : Type := {
  max : nat; edgeMax : num; edgeMin : num; xSpeed : num; ySpeed : num
}.

Record Bounds : Type := { width : num; height : num; center : num * num }.

(** [state], lines 33-43. *)
Record State : Type := { bounds : Bounds; ticks : Z; things : list Thing }.

(** [Partial<state>] *)
Record PartialState : Type := {
  s_bounds : option Bounds; s_ticks : option Z; s_things : option (list Thing)
}.

Variable settings : Settings.

(** [updateState(s)], lines 223-228: [{...state, ...s}]. *)
Definition updateState (s : PartialState) (state : State) : State :=
  {| bounds := default (bounds state) (s_bounds s);
     ticks := default (ticks state) (s_ticks s);
     things := default (things state) (s_things s) |}.

(** [addThing(t)], lines 49-51. *)
Definition addThing (t : Thing) (state : State) : State :=
  updateState {| s_bounds := None; s_ticks := None;
                 s_things := Some (things state ++ [t]) |} state.

(** [updateThing(t)], lines 92-106. *)
Definition updateThing (t : Thing) : Thing :=
  let x1 := add (x t) (xSpeed settings) in
  let x2 := if gt x1 (edgeMax settings) then edgeMin settings else x1 in
  let y1 := add (y t) (ySpeed settings) in
  let xy := if gt y1 (edgeMax settings)
            then (edgeMin settings, edgeMin settings) else (x2, y1) in
  {| x := xy.1; y := xy.2; scale := scale t; msg := msg t; created := created t |}.

(** [update()], lines 141-151. *)
Definition update (state : State) : State :=
  let ticks' := (ticks state + 1)%Z in
  let things' := map updateThing (things state) in
  updateState {| s_bounds := None; s_ticks := Some ticks';
                 s_things := Some things' |} state.

(** The callback of the second [continuously], lines 210-215; [t] is the
    thing [addRandomThing] makes. *)
Definition addTimer (t : Thing) (state : State) : State :=
  if (max settings <=? length (things state))%nat then state
  else addThing t state.

(** The callback given to [Dom.fullSizeCanvas], lines 196-200. *)
Definition resized (b : Bounds) (state : State) : State :=
  updateState {| s_bounds := Some b; s_ticks := None; s_things := None |} state.

(** What happens to [state] while the sketch runs. *)
Inductive step : State -> State -> Prop :=
| step_update state : step state (update state)
| step_addTimer t state : step state (addTimer t state)
| step_resized b state : step state (resized b state).

End Sketch.

End Things.

(** The sketch on rationals, with the values of its [settings]. *)
Definition q_gt (a b : Q) : bool := negb (Qle_bool a b).

Definition q_settings : Things.Settings :=
  {| Things.max := 10; Things.edgeMax := 11 # 10; Things.edgeMin := (-1) # 10;
     Things.xSpeed := 1 # 100; Things.ySpeed := 1 # 1000 |}.

Definition q_thing (qx qy : Q) : Things.Thing :=
  {| Things.x := qx; Things.y := qy; Things.scale := 1 # 2;
     Things.msg := "a"; Things.created := 0 |}.

Definition q_state (ts : list (@Things.Thing Q)) : Things.State :=
  {| Things.bounds := {| Things.width := 0%Q; Things.height := 0%Q;
                         Things.center := (0%Q, 0%Q) |};
     Things.ticks := 0; Things.things := ts |}.

(** * Properties *)

(** ** The map *)

Section JsMapFacts.
Context {V : Type}.
Implicit Types (m : list (string * V)) (k : string) (v : V).

Lemma get_None m k : JsMap.get k m = None <-> k ∉ JsMap.keys m.
Proof.
  induction m as [|[k' v'] m IH]; simpl.
  - split; [intros _; apply not_elem_of_nil | done].
  - rewrite not_elem_of_cons. destruct (String.eqb_spec k k') as [->|Hne].
    + split; [done | intros [? _]; done].
    + rewrite IH. split; [intros; by split | by intros [_ ?]].
Qed.

Lemma get_Some_elem m k v : JsMap.get k m = Some v -> (k, v) ∈ m.
Proof.
  induction m as [|[k' v'] m IH]; simpl; [done|].
  destruct (String.eqb_spec k k') as [->|Hne].
  - intros [= ->]. apply elem_of_cons; by left.
  - intros H. apply elem_of_cons; right; auto.
Qed.

Lemma elem_NoDup_get m k v :
  NoDup (JsMap.keys m) -> (k, v) ∈ m -> JsMap.get k m = Some v.
Proof.
  induction m as [|[k' v'] m IH]; simpl.
  - intros _ H. by apply elem_of_nil in H.
  - rewrite NoDup_cons. intros [Hk Hnd] [H|H]%elem_of_cons.
    + injection H as -> ->. by rewrite String.eqb_refl.
    + destruct (String.eqb_spec k k') as [->|Hne]; [|by apply IH].
      exfalso. apply Hk. change k' with (fst (k', v)).
      by apply list_elem_of_fmap_2.
Qed.

Lemma set_absent m k v : JsMap.get k m = None -> JsMap.set k v m = m ++ [(k, v)].
Proof.
  induction m as [|[k' v'] m IH]; simpl; [done|].
  destruct (String.eqb_spec k k') as [->|Hne]; [done|].
  intros H. by rewrite IH.
Qed.

Lemma get_set_eq m k v : JsMap.get k (JsMap.set k v m) = Some v.
Proof.
  induction m as [|[k' v'] m IH]; simpl.
  - by rewrite String.eqb_refl.
  - destruct (String.eqb_spec k k') as [->|Hne]; simpl.
    + by rewrite String.eqb_refl.
    + by destruct (String.eqb_spec k k').
Qed.

(** Deleting, in turn, keys that are not [k] leaves the entry of [k]. *)
Lemma delete_others_head (l : list (string * V)) m k v :
  (forall e, e ∈ l -> e.1 <> k) ->
  fold_left (fun d e => JsMap.delete e.1 d) l ((k, v) :: m)
  = (k, v) :: fold_left (fun d e => JsMap.delete e.1 d) l m.
Proof.
  revert m. induction l as [|e l IH]; intros m Hl; simpl; [done|].
  destruct (String.eqb_spec e.1 k) as [Heq|Hne].
  - exfalso. eapply Hl; [apply elem_of_cons; by left | done].
  - apply IH. intros e' He'. apply Hl, elem_of_cons. by right.
Qed.

(** With unique keys, deleting the selected entries one by one is
    filtering them out. *)
Lemma delete_selected (P : string * V -> bool) m :
  NoDup (JsMap.keys m) ->
  fold_left (fun d e => JsMap.delete e.1 d) (List.filter P m) m
  = List.filter (fun e => negb (P e)) m.
Proof.
  induction m as [|[k v] m IH]; simpl; [done|].
  rewrite NoDup_cons. intros [Hk Hnd].
  destruct (P (k, v)) eqn:HP; simpl.
  - rewrite String.eqb_refl. by apply IH.
  - rewrite delete_others_head; [by rewrite IH|].
    intros e He Heq. apply list_elem_of_In, filter_In in He as [He _].
    apply Hk. rewrite <- Heq. by apply list_elem_of_fmap_2, list_elem_of_In.
Qed.
End JsMapFacts.

(** ** [seen] *)

Lemma alter_fresh {A} (f : A -> A) (l : list A) (a : A) :
  alter f (length l) (l ++ [a]) = l ++ [f a].
Proof. induction l as [|b l IH]; simpl; [done|]. by f_equal. Qed.

Lemma seen_from_undefined now pose st :
  seen now undefined pose st
  = (Threw (ErrorMsg "Parameter 'from' is undefined"), st).
Proof. reflexivity. Qed.

Lemma seen_pose_undefined now from st :
  is_undefined from = false ->
  seen now from undefined st
  = (Threw (ErrorMsg "Parameter 'pose' is undefined"), st).
Proof. by destruct from. Qed.

(** [pose.id] on [null] throws before anything is touched. *)
Lemma seen_pose_null now from st :
  is_undefined from = false ->
  seen now from null st = (Threw TypeError, st).
Proof. by destruct from. Qed.

Lemma seen_absent now from p st :
  is_undefined from = false ->
  JsMap.get (nsIdOf from (poseIdOf p)) (data st) = None ->
  seen now from (value p) st
  = (Returned (nsIdOf from (poseIdOf p)), st_added now from p st).
Proof.
  intros Hfrom Hget.
  assert (seen now from (value p) st
          = (Returned (nsIdOf from (poseIdOf p)),
             {| data := JsMap.set (nsIdOf from (poseIdOf p)) (length (store st)) (data st);
                options := options st;
                events := events st ++ [added (length (store st))];
                store := alter (PoseTracker.seen now p) (length (store st))
                  (store st ++ [PoseTracker.new from (poseIdOf p) (options st)]) |})) as ->.
  { destruct from; try discriminate Hfrom;
      unfold seen, bind, when, gets, ret; simpl;
      unfold nsIdOf, poseIdOf in Hget; simpl in Hget; by rewrite Hget. }
  unfold st_added. by rewrite set_absent, alter_fresh.
Qed.

Lemma seen_present now from p r st :
  is_undefined from = false ->
  JsMap.get (nsIdOf from (poseIdOf p)) (data st) = Some r ->
  seen now from (value p) st
  = (Returned (nsIdOf from (poseIdOf p)), st_updated now p r st).
Proof.
  intros Hfrom Hget.
  destruct from; try discriminate Hfrom;
    unfold seen, bind, when, gets, ret; simpl;
    unfold nsIdOf, poseIdOf in Hget; simpl in Hget; by rewrite Hget.
Qed.

(** A returning call was given a sender and a pose object. *)
Lemma seen_returned now from pose st gid st' :
  seen now from pose st = (Returned gid, st') ->
  is_undefined from = false /\ exists p, pose = value p.
Proof.
  destruct from, pose; try discriminate; eauto.
Qed.

Lemma get_st_added now from p st :
  JsMap.get (nsIdOf from (poseIdOf p)) (data st) = None ->
  JsMap.get (nsIdOf from (poseIdOf p)) (data (st_added now from p st))
  = Some (length (store st)).
Proof.
  intros Hget. simpl. rewrite <- (set_absent _ _ _ Hget). apply get_set_eq.
Qed.

Lemma deref_st_added now from p st :
  deref (st_added now from p st) (length (store st))
  = Some (PoseTracker.seen now p (PoseTracker.new from (poseIdOf p) (options st))).
Proof.
  unfold deref; simpl. rewrite lookup_app_r by lia.
  by rewrite Nat.sub_diag.
Qed.

(** ** The scan *)

Lemma for_of_expire (l : list (string * ref)) st :
  for_of l (fun entry =>
    modify (fun st => with_data (JsMap.delete entry.1 (data st)) st) ;;
    dispatchEvent (expired entry.2))%js st
  = (Returned tt,
     {| data := fold_left (fun d e => JsMap.delete e.1 d) l (data st);
        options := options st;
        events := events st ++ map (fun e => expired e.2) l;
        store := store st |}).
Proof.
  revert st. induction l as [|e l IH]; intros st; simpl.
  - unfold ret. rewrite app_nil_r. by destruct st.
  - unfold bind at 1. unfold bind at 1. simpl. rewrite IH. simpl.
    by rewrite <- app_assoc.
Qed.

Lemma tick_scanned now st :
  NoDup (JsMap.keys (data st)) ->
  tick now st = (Returned tt, st_scanned now st).
Proof.
  intros Hnd. unfold tick, bind at 1, gets. simpl.
  rewrite for_of_expire. by rewrite delete_selected.
Qed.

Lemma NoDup_keys_filter {V} (P : string * V -> bool) (m : list (string * V)) :
  NoDup (JsMap.keys m) -> NoDup (JsMap.keys (List.filter P m)).
Proof.
  induction m as [|[k v] m IH]; simpl; [done|].
  rewrite NoDup_cons. intros [Hk Hnd].
  destruct (P (k, v)); simpl; [|by apply IH].
  apply NoDup_cons. split; [|by apply IH].
  intros [e [-> He]]%list_elem_of_fmap.
  apply list_elem_of_In, filter_In in He as [He _].
  apply Hk. by apply list_elem_of_fmap_2, list_elem_of_In.
Qed.

(** ** The representation invariant *)

Lemma wf_constructor o : wf (constructor o).
Proof.
  split; simpl.
  - apply NoDup_nil_2.
  - intros k r H. by apply elem_of_nil in H.
  - intros r tr H. by rewrite lookup_nil in H.
Qed.

Lemma wf_st_added now from p st :
  wf st -> JsMap.get (nsIdOf from (poseIdOf p)) (data st) = None ->
  wf (st_added now from p st).
Proof.
  intros [Hnd Hent Hgd] Hget. split; simpl.
  - unfold JsMap.keys. rewrite map_app. simpl. apply NoDup_app.
    split; [done|]. split; [|apply NoDup_singleton].
    intros k Hk ->%list_elem_of_singleton. by apply get_None in Hget.
  - intros k r [Hin|Hin%list_elem_of_singleton]%elem_of_app.
    + destruct (Hent k r Hin) as (tr & Htr & Hg & Hl).
      exists tr. split; [by apply lookup_app_l_Some | done].
    + injection Hin as -> ->. eexists. split; [apply deref_st_added|].
      split; [done | by eexists].
  - intros r tr [Htr|[_ Htr]]%lookup_app_Some; [by apply (Hgd r)|].
    apply list_lookup_singleton_Some in Htr as [_ <-]. done.
Qed.

Lemma wf_st_updated now p r st : wf st -> wf (st_updated now p r st).
Proof.
  intros [Hnd Hent Hgd]. split; simpl; [done| |].
  - intros k r' Hin. destruct (Hent k r' Hin) as (tr & Htr & Hg & Hl).
    destruct (decide (r = r')) as [->|Hne].
    + exists (PoseTracker.seen now p tr). split; [|split; [done | by eexists]].
      simpl. by rewrite list_lookup_alter_eq, Htr.
    + exists tr. by rewrite list_lookup_alter_ne.
  - intros r' tr'. destruct (decide (r = r')) as [->|Hne].
    + rewrite list_lookup_alter_eq.
      destruct (store st !! r') as [tr|] eqn:Htr; [|done].
      intros [= <-]. simpl. by apply (Hgd r').
    + rewrite list_lookup_alter_ne by done. apply Hgd.
Qed.

Lemma wf_seen now from pose st : wf st -> wf (seen now from pose st).2.
Proof.
  intros Hwf. destruct from as [| |s] eqn:Hf; [done| |];
    (destruct pose as [| |p]; [done|done|]);
    (destruct (JsMap.get (nsIdOf from (poseIdOf p)) (data st)) as [r|] eqn:Hget;
     subst from;
     [ rewrite (seen_present _ _ _ r) by done; by apply wf_st_updated
     | rewrite seen_absent by done; by apply wf_st_added ]).
Qed.

Lemma wf_tick now st : wf st -> wf (tick now st).2.
Proof.
  intros [Hnd Hent Hgd]. rewrite tick_scanned by done. split; simpl.
  - by apply NoDup_keys_filter.
  - intros k r Hin. apply Hent.
    apply list_elem_of_In, filter_In in Hin as [Hin _]. by apply list_elem_of_In.
  - done.
Qed.

Lemma wf_clear st : wf st -> wf (clear st).2.
Proof.
  intros [_ _ Hgd]. split; simpl.
  - apply NoDup_nil_2.
  - intros k r H. by apply elem_of_nil in H.
  - done.
Qed.

Lemma wf_step st st' : step st st' -> wf st -> wf st'.
Proof.
  intros [now from pose st0 gid st1 Hseen|now st0|st0] Hwf.
  - change st1 with (Returned gid, st1).2. rewrite <- Hseen. by apply wf_seen.
  - by apply wf_tick.
  - by apply wf_clear.
Qed.

Lemma reachable_wf st : reachable st -> wf st.
Proof.
  intros [o Hrtc]. revert st Hrtc. apply rtc_ind_r.
  - apply wf_constructor.
  - intros st1 st2 _ Hstep IH. by eapply wf_step.
Qed.

Lemma reachable_constructor o : reachable (constructor o).
Proof. exists o. apply rtc_refl. Qed.

Lemma reachable_step st st' : reachable st -> step st st' -> reachable st'.
Proof. intros [o Hrtc] Hstep. exists o. by eapply rtc_r. Qed.

Lemma reachable_after_seen st c : reachable st -> reachable (after_seen st c).
Proof.
  intros Hst. unfold after_seen.
  destruct (seen (c_now c) (c_from c) (c_pose c) st) as [[gid|e] st'] eqn:Hseen.
  - eapply reachable_step; [done | by eapply step_seen].
  - destruct c as [now [| |s] [| |p]]; simpl in Hseen;
      try (injection Hseen as _ <-; exact Hst).
    + destruct (JsMap.get (nsIdOf null (poseIdOf p)) (data st)) as [r|] eqn:Hget.
      * by rewrite (seen_present _ _ _ r) in Hseen.
      * by rewrite seen_absent in Hseen.
    + destruct (JsMap.get (nsIdOf (value s) (poseIdOf p)) (data st)) as [r|] eqn:Hget.
      * by rewrite (seen_present _ _ _ r) in Hseen.
      * by rewrite seen_absent in Hseen.
Qed.

Lemma reachable_seen_all o calls : reachable (seen_all o calls).
Proof.
  unfold seen_all. generalize (reachable_constructor o).
  generalize (constructor o). induction calls as [|c calls IH]; intros st Hst; simpl.
  - done.
  - by apply IH, reachable_after_seen.
Qed.

(** ** Claims about [seen] *)

(** C4: whatever the registry holds, [seen] called with [from] or [pose]
    [undefined] throws an [Error] naming the parameter, and the state it
    leaves is the state it found: the map is unchanged and no event was
    dispatched. *)
Theorem seen_rejects_undefined now from pose st :
  is_undefined from = true \/ is_undefined pose = true ->
  exists msg, seen now from pose st = (Threw (ErrorMsg msg), st).
Proof.
  intros [Hf|Hp].
  - destruct from; try discriminate Hf. eexists. apply seen_from_undefined.
  - destruct pose; try discriminate Hp.
    destruct (is_undefined from) eqn:Hf.
    + destruct from; try discriminate Hf. eexists. apply seen_from_undefined.
    + eexists. by apply seen_pose_undefined.
Qed.

Lemma seen_rejects_undefined_witness :
  exists msg, seen 9 (value "cam1") undefined two_cameras
              = (Threw (ErrorMsg msg), two_cameras).
Proof.
  apply (seen_rejects_undefined 9 (value "cam1") undefined two_cameras).
  right. reflexivity.
Defined.

(** C9: only [undefined] is rejected.  [seen(null, pose)] with a pose whose
    id is defined returns the key "null-" + String(pose.id), and the
    registry then holds under that key a tracker whose last pose is [pose],
    seen at the time of the call: a new one, registered and announced by an
    [added] event, when the key was absent, and the one already registered
    when it was present. *)
Theorem seen_accepts_null now p v st :
  reachable st -> id p = value v ->
  let gid := "null-" +:+ toString v in
  exists r tr st',
    seen now null (value p) st = (Returned gid, st') /\
    getTrackerByGuid gid st' = Some r /\
    deref st' r = Some tr /\
    PoseTracker.last tr = Some p /\ PoseTracker.seenAt tr = now /\
    (getTrackerByGuid gid st = None ->
       deref st r = None /\ size st' = S (size st) /\
       events st' = events st ++ [added r]) /\
    (forall r0, getTrackerByGuid gid st = Some r0 ->
       r = r0 /\ data st' = data st /\ events st' = events st).
Proof.
  intros Hst Hid gid.
  assert (gid = nsIdOf null (poseIdOf p)) as Hgid.
  { unfold gid, nsIdOf, poseIdOf. by rewrite Hid. }
  unfold getTrackerByGuid. rewrite Hgid.
  destruct (JsMap.get (nsIdOf null (poseIdOf p)) (data st)) as [r0|] eqn:Hget.
  - apply reachable_wf in Hst as [_ Hent _].
    destruct (Hent _ _ (get_Some_elem _ _ _ Hget)) as (tr & Htr & _).
    exists r0, (PoseTracker.seen now p tr), (st_updated now p r0 st).
    split; [by apply seen_present|]. split; [done|].
    split; [unfold deref; simpl; by rewrite list_lookup_alter_eq, Htr|].
    split; [done|]. split; [done|]. split; [done|].
    by intros r1 [= ->].
  - exists (length (store st)),
      (PoseTracker.seen now p (PoseTracker.new null (poseIdOf p) (options st))),
      (st_added now null p st).
    split; [by apply seen_absent|]. split; [by apply get_st_added|].
    split; [apply deref_st_added|]. split; [done|]. split; [done|].
    split; [|done]. intros _. split; [|split].
    + unfold deref. by apply lookup_ge_None_2.
    + unfold size, JsMap.size; simpl. rewrite length_app; simpl. lia.
    + done.
Qed.

Lemma seen_accepts_null_witness :
  exists r tr st',
    seen 9 null (value pose5) two_cameras = (Returned "null-5", st') /\
    getTrackerByGuid "null-5" st' = Some r /\
    deref st' r = Some tr /\
    PoseTracker.last tr = Some pose5 /\ PoseTracker.seenAt tr = 9 /\
    (getTrackerByGuid "null-5" two_cameras = None ->
       deref two_cameras r = None /\ size st' = S (size two_cameras) /\
       events st' = events two_cameras ++ [added r]) /\
    (forall r0, getTrackerByGuid "null-5" two_cameras = Some r0 ->
       r = r0 /\ data st' = data two_cameras /\ events st' = events two_cameras).
Proof.
  apply (seen_accepts_null 9 pose5 (IdNum 5) two_cameras).
  - apply reachable_seen_all.
  - reflexivity.
Defined.

(** C2: when no tracker is registered under the key of a [(fromId,
    poseId)] pair, two calls of [seen] with that pair return the same key;
    the first creates a tracker, registers it and dispatches one [added]
    event carrying it; the second dispatches nothing and leaves that same
    tracker registered, with the pose of the second call as its [last]. *)
Theorem seen_twice now1 now2 from p1 p2 st :
  is_undefined from = false ->
  poseIdOf p1 = poseIdOf p2 ->
  let gid := nsIdOf from (poseIdOf p1) in
  getTrackerByGuid gid st = None ->
  exists r st1 st2,
    seen now1 from (value p1) st = (Returned gid, st1) /\
    seen now2 from (value p2) st1 = (Returned gid, st2) /\
    deref st r = None /\
    getTrackerByGuid gid st1 = Some r /\
    last_of st1 r = Some p1 /\
    events st1 = events st ++ [added r] /\
    events st2 = events st1 /\
    getTrackerByGuid gid st2 = Some r /\
    last_of st2 r = Some p2.
Proof.
  intros Hfrom Hpid gid Hget. unfold getTrackerByGuid in *.
  pose proof (get_st_added now1 from p1 st Hget) as Hget1.
  exists (length (store st)), (st_added now1 from p1 st),
    (st_updated now2 p2 (length (store st)) (st_added now1 from p1 st)).
  split; [by apply seen_absent|].
  split.
  { unfold gid. rewrite Hpid. apply seen_present; [done|]. by rewrite <- Hpid. }
  split; [unfold deref; by apply lookup_ge_None_2|].
  split; [done|].
  split; [unfold last_of; by rewrite deref_st_added|].
  split; [done|]. split; [done|]. split; [done|].
  unfold last_of, deref. simpl. rewrite list_lookup_alter_eq.
  rewrite lookup_app_r by lia. by rewrite Nat.sub_diag.
Qed.

Lemma seen_twice_witness :
  exists r st1 st2,
    seen 10 (value "cam3") (value pose5) two_cameras = (Returned "cam3-5", st1) /\
    seen 20 (value "cam3") (value (pose_with_id (value (IdStr "5")))) st1
      = (Returned "cam3-5", st2) /\
    deref two_cameras r = None /\
    getTrackerByGuid "cam3-5" st1 = Some r /\
    last_of st1 r = Some pose5 /\
    events st1 = events two_cameras ++ [added r] /\
    events st2 = events st1 /\
    getTrackerByGuid "cam3-5" st2 = Some r /\
    last_of st2 r = Some (pose_with_id (value (IdStr "5"))).
Proof.
  apply (seen_twice 10 20 (value "cam3") pose5
           (pose_with_id (value (IdStr "5"))) two_cameras);
    reflexivity.
Defined.

(** ** Lookup by guid *)

(** C10: in every state of a registry, [getValueByGuid(id)] is present
    exactly when [getTrackerByGuid(id)] is, and is then the [last] of that
    tracker. *)
Theorem getValueByGuid_agrees gid st :
  reachable st ->
  (is_Some (getValueByGuid gid st) <-> is_Some (getTrackerByGuid gid st)) /\
  (forall r, getTrackerByGuid gid st = Some r ->
     exists tr, deref st r = Some tr /\
                getValueByGuid gid st = PoseTracker.last tr).
Proof.
  intros [_ Hent _]%reachable_wf. unfold getValueByGuid, getTrackerByGuid.
  destruct (JsMap.get gid (data st)) as [r|] eqn:Hget.
  - destruct (Hent _ _ (get_Some_elem _ _ _ Hget)) as (tr & Htr & _ & Hlast).
    assert (last_of st r = PoseTracker.last tr) as Hlo.
    { unfold last_of, deref. by rewrite Htr. }
    split.
    + rewrite Hlo. split; [by eexists | done].
    + intros r' [= <-]. by exists tr.
  - split; [|done]. split; intros [? ?]; done.
Qed.

Lemma getValueByGuid_agrees_witness :
  (is_Some (getValueByGuid "cam2-5" two_cameras)
   <-> is_Some (getTrackerByGuid "cam2-5" two_cameras)) /\
  (forall r, getTrackerByGuid "cam2-5" two_cameras = Some r ->
     exists tr, deref two_cameras r = Some tr /\
                getValueByGuid "cam2-5" two_cameras = PoseTracker.last tr).
Proof.
  apply (getValueByGuid_agrees "cam2-5" two_cameras).
  apply reachable_seen_all.
Defined.

(** ** Expiry *)

(** C3: a scan at time [now] returns normally and removes from the map
    exactly the entries whose tracker's [elapsed] is greater than
    [maxAgeMs]; the other entries stay, in their order, and nothing is
    added.  It dispatches one [expired] event for each removed entry,
    carrying the removed tracker, in map order, and no other event. *)
Theorem tick_expires now st :
  reachable st ->
  exists st',
    tick now st = (Returned tt, st') /\
    data st' = List.filter (fun e => negb (is_expired now st e)) (data st) /\
    (forall k r, (k, r) ∈ data st ->
       ((k, r) ∉ data st' <-> (elapsed_of now st r > maxAgeMs (options st))%Z)) /\
    (forall k r, (k, r) ∈ data st' -> (k, r) ∈ data st) /\
    events st' = events st ++
      map (fun e => expired e.2) (List.filter (is_expired now st) (data st)) /\
    store st' = store st.
Proof.
  intros [Hnd _ _]%reachable_wf. exists (st_scanned now st).
  split; [by apply tick_scanned|]. split; [done|].
  split; [|split; [|done]].
  - intros k r Hin. simpl. rewrite list_elem_of_In, filter_In, <- list_elem_of_In.
    unfold is_expired; simpl.
    destruct (Z.gtb_spec (elapsed_of now st r) (maxAgeMs (options st))) as [Hgt|Hle];
      simpl.
    + split; [lia | intros _ [_ ?]; done].
    + split; [intros Hn; exfalso; by apply Hn | lia].
  - intros k r Hin. simpl in Hin.
    apply list_elem_of_In, filter_In in Hin as [Hin _]. by apply list_elem_of_In.
Qed.

Lemma tick_expires_witness :
  exists st',
    tick 10005 two_cameras = (Returned tt, st') /\
    data st' = List.filter (fun e => negb (is_expired 10005 two_cameras e))
                 (data two_cameras) /\
    (forall k r, (k, r) ∈ data two_cameras ->
       ((k, r) ∉ data st'
        <-> (elapsed_of 10005 two_cameras r > maxAgeMs (options two_cameras))%Z)) /\
    (forall k r, (k, r) ∈ data st' -> (k, r) ∈ data two_cameras) /\
    events st' = events two_cameras ++
      map (fun e => expired e.2)
        (List.filter (is_expired 10005 two_cameras) (data two_cameras)) /\
    store st' = store two_cameras.
Proof.
  apply (tick_expires 10005 two_cameras).
  apply reachable_seen_all.
Defined.

(** The scan of the sample registry at 10005 ms: "cam1-5", last seen at
    3 ms, is 10002 ms old and goes; "cam2-5", last seen at 7 ms, stays. *)
Example tick_two_cameras :
  data (tick 10005 two_cameras).2 = [("cam2-5", 1%nat)] /\
  events (tick 10005 two_cameras).2 = [added 0%nat; added 1%nat; expired 0%nat].
Proof. split; reflexivity. Qed.

(** An entry exactly [maxAgeMs] old is kept. *)
Example tick_at_max_age :
  data (tick 10003 two_cameras).2 = data two_cameras.
Proof. reflexivity. Qed.

(** With [maxAgeMs = 1000], a tracker seen at 0 ms survives the scan at
    1000 ms and goes at the scan at 2000 ms, with one [expired] event. *)
Example tick_short_lived :
  (tick 1000 short_lived).2 = short_lived /\
  data (tick 2000 short_lived).2 = [] /\
  events (tick 2000 short_lived).2 = [added 0%nat; expired 0%nat].
Proof. repeat split; reflexivity. Qed.

(** [clear()] empties the map and dispatches nothing. *)
Lemma clear_size st :
  size (clear st).2 = 0%nat /\ events (clear st).2 = events st.
Proof. done. Qed.

(** ** The key [from + `-` + id] *)

Lemma append_nil (t : string) : "" +:+ t = t.
Proof. reflexivity. Qed.

Lemma append_cons (c : ascii) (s t : string) :
  String c s +:+ t = String c (s +:+ t).
Proof. reflexivity. Qed.

Lemma sep_free_cons c s :
  sep_free (String c s) = true <-> c <> "-"%char /\ sep_free s = true.
Proof.
  simpl. rewrite andb_true_iff, negb_true_iff.
  destruct (Ascii.eqb_spec c "-"); intuition congruence.
Qed.

(** A string with a separator in it is not separator free. *)
Lemma sep_free_joined s t : sep_free (s +:+ "-" +:+ t) = false.
Proof.
  induction s as [|c s IH].
  - reflexivity.
  - rewrite append_cons. simpl. rewrite IH. apply andb_false_r.
Qed.

(** When the left parts hold no separator, the first separator of the key
    is the one [seen] put there. *)
Lemma key_inj_left s1 s2 t1 t2 :
  sep_free s1 = true -> sep_free s2 = true ->
  s1 +:+ "-" +:+ t1 = s2 +:+ "-" +:+ t2 -> s1 = s2 /\ t1 = t2.
Proof.
  revert s2. induction s1 as [|c s1 IH]; intros [|c' s2] H1 H2 Heq.
  - rewrite !append_nil in Heq. by injection Heq.
  - rewrite append_nil, append_cons in Heq. injection Heq as <- _.
    apply sep_free_cons in H2 as [? _]. done.
  - rewrite append_nil, append_cons in Heq. injection Heq as -> _.
    apply sep_free_cons in H1 as [? _]. done.
  - rewrite !append_cons in Heq. injection Heq as <- Heq.
    apply sep_free_cons in H1 as [_ H1]. apply sep_free_cons in H2 as [_ H2].
    destruct (IH s2 H1 H2 Heq) as [-> ->]. done.
Qed.

(** When the right parts hold no separator, the last separator of the key
    is the one [seen] put there. *)
Lemma key_inj_right s1 s2 t1 t2 :
  sep_free t1 = true -> sep_free t2 = true ->
  s1 +:+ "-" +:+ t1 = s2 +:+ "-" +:+ t2 -> s1 = s2 /\ t1 = t2.
Proof.
  revert s2. induction s1 as [|c s1 IH]; intros [|c' s2] H1 H2 Heq.
  - rewrite !append_nil in Heq. by injection Heq.
  - rewrite append_nil, append_cons in Heq. injection Heq as _ Heq.
    rewrite append_nil in Heq. rewrite Heq, sep_free_joined in H1. done.
  - rewrite append_nil, append_cons in Heq. injection Heq as _ Heq.
    rewrite append_nil in Heq. rewrite <- Heq, sep_free_joined in H2. done.
  - rewrite !append_cons in Heq. injection Heq as <- Heq.
    destruct (IH s2 H1 H2 Heq) as [-> ->]. done.
Qed.

(** In a well-formed state the guids of the trackers, in map order, are
    the keys of the map. *)
Lemma getGuids_keys st : wf st -> getGuids st = JsMap.keys (data st).
Proof.
  intros [_ Hent _]. unfold getGuids, JsMap.values, JsMap.keys.
  induction (data st) as [|[k r] m IH]; simpl; [done|].
  destruct (Hent k r) as (tr & Htr & Hg & _); [apply elem_of_cons; by left|].
  unfold deref at 1. rewrite Htr. simpl. rewrite Hg. f_equal.
  apply IH. intros k' r' Hin. apply Hent, elem_of_cons. by right.
Qed.

(** C6: in every state of a registry the guids yielded by [getGuids()]
    are pairwise distinct, and each is the key [fromId + "-" + poseId]
    of the tracker registered under it; and two pairs of identifiers
    without the separator that give the same key are the same pair. *)
Theorem guids_distinct st :
  reachable st ->
  NoDup (getGuids st) /\
  (forall g, g ∈ getGuids st ->
     exists r tr, getTrackerByGuid g st = Some r /\ deref st r = Some tr /\
       g = nsIdOf (PoseTracker.fromId tr) (PoseTracker.poseId tr)) /\
  (forall f1 p1 f2 p2,
     sep_free f1 = true -> sep_free p1 = true ->
     sep_free f2 = true -> sep_free p2 = true ->
     nsIdOf (value f1) p1 = nsIdOf (value f2) p2 -> f1 = f2 /\ p1 = p2).
Proof.
  intros Hst. apply reachable_wf in Hst as Hwf.
  rewrite (getGuids_keys st Hwf). destruct Hwf as [Hnd Hent Hgd].
  split; [done|]. split.
  - intros g [[k r] [-> Hin]]%list_elem_of_fmap. simpl.
    destruct (Hent k r Hin) as (tr & Htr & Hg & _).
    exists r, tr. split; [by apply elem_NoDup_get|]. split; [done|].
    rewrite <- Hg. by apply (Hgd r).
  - intros f1 p1 f2 p2 Hf1 _ Hf2 _. unfold nsIdOf; simpl. by apply key_inj_left.
Qed.

Lemma guids_distinct_witness :
  NoDup (getGuids two_cameras) /\
  (forall g, g ∈ getGuids two_cameras ->
     exists r tr, getTrackerByGuid g two_cameras = Some r /\
       deref two_cameras r = Some tr /\
       g = nsIdOf (PoseTracker.fromId tr) (PoseTracker.poseId tr)) /\
  (forall f1 p1 f2 p2,
     sep_free f1 = true -> sep_free p1 = true ->
     sep_free f2 = true -> sep_free p2 = true ->
     nsIdOf (value f1) p1 = nsIdOf (value f2) p2 -> f1 = f2 /\ p1 = p2).
Proof.
  apply (guids_distinct two_cameras).
  apply reachable_seen_all.
Defined.

Example getGuids_two_cameras : getGuids two_cameras = ["cam1-5"; "cam2-5"].
Proof. reflexivity. Qed.

(** Two senders with the same pose id: two trackers, each found by its
    guid, and the first of them found by the pose id. *)
Example lookups_two_cameras :
  getTrackerByGuid "cam1-5" two_cameras = Some 0%nat /\
  getTrackerByGuid "cam2-5" two_cameras = Some 1%nat /\
  getTrackerByPoseId "5" two_cameras = Some 0%nat /\
  getValueByPoseId "5" two_cameras = Some pose5 /\
  getTrackerByGuid "cam3-5" two_cameras = None.
Proof. repeat split; reflexivity. Qed.

(** Keys do collide when an identifier holds the separator. *)
Example key_collision :
  nsIdOf (value "a-") (toString (IdNum 1)) = nsIdOf (value "a") (toString (IdNum (-1))).
Proof. reflexivity. Qed.

(** ** Counting the trackers *)

Lemma keys_app {V} (m m' : list (string * V)) :
  JsMap.keys (m ++ m') = JsMap.keys m ++ JsMap.keys m'.
Proof. apply map_app. Qed.

(** The keys after a call are the keys before it and the key it brings. *)
Lemma keys_after_seen_value now from p st g :
  is_undefined from = false ->
  g ∈ JsMap.keys (data (seen now from (value p) st).2)
  <-> g ∈ JsMap.keys (data st) \/ nsIdOf from (poseIdOf p) = g.
Proof.
  intros Hfrom.
  destruct (JsMap.get (nsIdOf from (poseIdOf p)) (data st)) as [r|] eqn:Hget.
  - rewrite (seen_present _ _ _ r) by done. simpl.
    split; [by left|]. intros [H| <-]; [done|].
    apply get_Some_elem in Hget.
    change (nsIdOf from (poseIdOf p)) with (fst (nsIdOf from (poseIdOf p), r)).
    by apply list_elem_of_fmap_2.
  - rewrite seen_absent by done. simpl. rewrite keys_app, elem_of_app. simpl.
    rewrite list_elem_of_singleton. split; intros [H|H]; auto.
Qed.

Lemma keys_after_seen st c g :
  g ∈ JsMap.keys (data (after_seen st c))
  <-> g ∈ JsMap.keys (data st) \/ guid_of_pair <$> observed c = Some g.
Proof.
  unfold after_seen, observed.
  destruct c as [now [| |s] [| |p]]; simpl;
    try (intuition discriminate);
    rewrite keys_after_seen_value by done;
    unfold guid_of_pair, nsIdOf; simpl;
    split; (intros [H|H]; [by left | right; congruence]).
Qed.

Lemma wf_after_seen st c : wf st -> wf (after_seen st c).
Proof. apply wf_seen. Qed.

Lemma keys_after_calls calls st g :
  g ∈ JsMap.keys (data (fold_left after_seen calls st))
  <-> g ∈ JsMap.keys (data st) \/ g ∈ guid_of_pair <$> omap observed calls.
Proof.
  revert st. induction calls as [|c calls IH]; intros st; simpl.
  - rewrite elem_of_nil. tauto.
  - rewrite IH, keys_after_seen.
    destruct (observed c) as [fp|]; simpl.
    + rewrite elem_of_cons. split; [intros [[H|[= H]]|H] | intros [H|[H|H]]]; auto.
      left; right. by rewrite H.
    + intuition discriminate.
Qed.

Lemma wf_after_calls calls st : wf st -> wf (fold_left after_seen calls st).
Proof.
  revert st. induction calls as [|c calls IH]; intros st Hwf; simpl; [done|].
  by apply IH, wf_after_seen.
Qed.

(** The number of trackers after any sequence of calls on a new registry
    is the number of distinct keys the calls brought. *)
Lemma size_counts_keys o calls :
  size (seen_all o calls)
  = length (remove_dups (guid_of_pair <$> omap observed calls)).
Proof.
  unfold size, JsMap.size, seen_all.
  rewrite <- (length_fmap fst). apply Permutation_length, NoDup_Permutation.
  - apply (wf_after_calls calls _ (wf_constructor o)).
  - apply NoDup_remove_dups.
  - intros g. rewrite elem_of_remove_dups.
    change (fst <$> ?m) with (JsMap.keys m). rewrite keys_after_calls. simpl.
    rewrite elem_of_nil. tauto.
Qed.

(** A map that is one-to-one on a list keeps the number of distinct
    elements. *)
Lemma remove_dups_fmap_length {A B} `{EqDecision A, EqDecision B}
    (f : A -> B) (l : list A) :
  (forall a a', a ∈ l -> a' ∈ l -> f a = f a' -> a = a') ->
  length (remove_dups (f <$> l)) = length (remove_dups l).
Proof.
  induction l as [|a l IH]; intros Hinj; [done|].
  assert (length (remove_dups (f <$> l)) = length (remove_dups l)) as IH'.
  { apply IH. intros a1 a2 H1 H2. apply Hinj; apply elem_of_cons; by right. }
  change (remove_dups (f <$> a :: l))
    with (if decide_rel elem_of (f a) (f <$> l)
          then remove_dups (f <$> l) else f a :: remove_dups (f <$> l)).
  change (remove_dups (a :: l))
    with (if decide_rel elem_of a l then remove_dups l else a :: remove_dups l).
  destruct (decide_rel elem_of a l) as [Hin|Hnin];
    destruct (decide_rel elem_of (f a) (f <$> l)) as [Hin'|Hnin']; simpl.
  - done.
  - exfalso. by apply Hnin', list_elem_of_fmap_2.
  - exfalso. apply list_elem_of_fmap in Hin' as (a' & Heq & Hin').
    apply Hnin. rewrite (Hinj a a'); [done | | | done].
    + apply elem_of_cons; by left.
    + apply elem_of_cons; by right.
  - by rewrite IH'.
Qed.

(** A later call with a key already registered leaves [size] as it is. *)
Lemma size_seen_again now from p r st :
  is_undefined from = false ->
  getTrackerByGuid (nsIdOf from (poseIdOf p)) st = Some r ->
  size (seen now from (value p) st).2 = size st.
Proof. intros Hfrom Hget. by rewrite (seen_present _ _ _ r). Qed.

Lemma size_counts_injective o calls :
  (forall fp fp', fp ∈ omap observed calls -> fp' ∈ omap observed calls ->
     guid_of_pair fp = guid_of_pair fp' -> fp = fp') ->
  size (seen_all o calls) = length (remove_dups (omap observed calls)).
Proof. intros Hinj. rewrite size_counts_keys. by apply remove_dups_fmap_length. Qed.

(** Decimal numerals hold no separator. *)
Lemma sep_free_uint d : sep_free (NilEmpty.string_of_uint d) = true.
Proof. induction d; simpl; auto. Qed.

Lemma sep_free_poseIdOf p : detector_id (id p) = true -> sep_free (poseIdOf p) = true.
Proof.
  unfold poseIdOf. destruct (id p) as [| |[n|s]]; simpl; try done.
  intros Hn%Z.leb_le. destruct n as [|q|q]; [reflexivity| |lia].
  simpl. unfold NilZero.string_of_uint.
  destruct (Pos.to_uint q); try reflexivity; apply sep_free_uint.
Qed.

(** With the ids of a pose detector, whatever the sender ids are, [size]
    is the number of distinct pairs observed. *)
Lemma size_with_detector_ids o calls :
  (forall c p, c ∈ calls -> c_pose c = value p -> detector_id (id p) = true) ->
  size (seen_all o calls) = length (remove_dups (omap observed calls)).
Proof.
  intros Hids. apply size_counts_injective.
  assert (forall fp, fp ∈ omap observed calls -> sep_free fp.2 = true) as Hsep.
  { intros fp (c & Hc & Hobs)%list_elem_of_omap. unfold observed in Hobs.
    destruct (c_from c), (c_pose c) as [| |p] eqn:Hp; try discriminate Hobs;
      injection Hobs as <-; simpl; by eapply sep_free_poseIdOf, Hids. }
  intros [f1 p1] [f2 p2] H1 H2 Heq. unfold guid_of_pair in Heq; simpl in Heq.
  destruct (key_inj_right f1 f2 p1 p2) as [-> ->];
    [apply (Hsep _ H1) | apply (Hsep _ H2) | done | done].
Qed.

(** C1, as the code has it: after any sequence of [seen] calls on a new
    registry, [size] is the number of distinct [(fromId, poseId)] pairs
    observed, provided that no observed [fromId] holds the separator, or
    that no observed [poseId] does. *)
Theorem size_counts_pairs o calls :
  forallb (fun fp => sep_free fp.1) (omap observed calls) = true \/
  forallb (fun fp => sep_free fp.2) (omap observed calls) = true ->
  size (seen_all o calls) = length (remove_dups (omap observed calls)).
Proof.
  intros Hsep. apply size_counts_injective.
  intros [f1 p1] [f2 p2] H1%list_elem_of_In H2%list_elem_of_In Heq.
  unfold guid_of_pair in Heq; simpl in Heq.
  destruct Hsep as [Hsep|Hsep]; rewrite forallb_forall in Hsep.
  - destruct (key_inj_left f1 f2 p1 p2) as [-> ->];
      [apply (Hsep _ H1) | apply (Hsep _ H2) | done | done].
  - destruct (key_inj_right f1 f2 p1 p2) as [-> ->];
      [apply (Hsep _ H1) | apply (Hsep _ H2) | done | done].
Qed.

Lemma size_counts_pairs_witness :
  size (seen_all no_options [call 3 "cam-1" 5; call 7 "cam-2" 5; call 9 "cam-1" 5])
  = length (remove_dups
              (omap observed [call 3 "cam-1" 5; call 7 "cam-2" 5; call 9 "cam-1" 5])).
Proof.
  apply (size_counts_pairs no_options
           [call 3 "cam-1" 5; call 7 "cam-2" 5; call 9 "cam-1" 5]).
  right. reflexivity.
Defined.

(** C1 as stated, for every sequence of calls, fails: [seen("a-", {id: 1})]
    and [seen("a", {id: -1})] bring two distinct pairs and one key,
    "a--1", so one tracker. *)
Lemma size_counts_pairs_counterexample :
  size (seen_all no_options colliding_calls)
  <> length (remove_dups (omap observed colliding_calls)).
Proof. vm_compute. discriminate. Qed.

Example size_colliding_calls :
  size (seen_all no_options colliding_calls) = 1%nat /\
  remove_dups (omap observed colliding_calls) = [("a-", "1"); ("a", "-1")] /\
  getGuids (seen_all no_options colliding_calls) = ["a--1"].
Proof. vm_compute. done. Qed.

(** ** Sorting by age *)

Section SortFacts.
Context {A : Type} (key : A -> Z).

Let cmp (a b : A) : Z := (key a - key b)%Z.
Let le (a b : A) : Prop := (key a <= key b)%Z.

Lemma sort_insert_perm a l : sort_insert cmp a l ≡ₚ a :: l.
Proof.
  induction l as [|b l IH]; simpl; [done|].
  destruct (cmp a b <=? 0)%Z; [done|].
  rewrite IH. apply perm_swap.
Qed.

Lemma array_sort_perm l : array_sort cmp l ≡ₚ l.
Proof.
  induction l as [|a l IH]; simpl; [done|].
  by rewrite sort_insert_perm, IH.
Qed.

Lemma sort_insert_sorted a l :
  StronglySorted le l -> StronglySorted le (sort_insert cmp a l).
Proof.
  induction 1 as [|b l Hl IH Hb]; simpl.
  - repeat constructor.
  - destruct (Z.leb_spec (cmp a b) 0) as [Hab|Hab]; unfold cmp in Hab.
    + constructor; [by constructor|].
      constructor; [unfold le; lia|].
      eapply Forall_impl; [exact Hb|]. unfold le. intros c Hc. simpl in *. lia.
    + constructor; [done|].
      rewrite sort_insert_perm. constructor; [unfold le; lia | done].
Qed.

Lemma array_sort_sorted l : StronglySorted le (array_sort cmp l).
Proof.
  induction l as [|a l IH]; simpl; [constructor|].
  by apply sort_insert_sorted.
Qed.
End SortFacts.

(** ** Consuming the generators *)

Lemma consume_yield_star {W A}
    (next : Generator A -> W -> IteratorResult A * Generator A) :
  (forall rest w, next (SuspendedYield rest) w = yield_star rest) ->
  forall rest ws, consume next (SuspendedYield rest) ws = take (length ws) rest.
Proof.
  intros Hnext rest ws. revert rest.
  induction ws as [|w ws IH]; intros rest; simpl; [done|].
  rewrite Hnext. destruct rest as [|a rest]; simpl; [done|].
  by rewrite IH.
Qed.

Lemma consume_start {W A}
    (next : Generator A -> W -> IteratorResult A * Generator A)
    (snapshot : W -> list A) :
  (forall w, next SuspendedStart w = yield_star (snapshot w)) ->
  (forall rest w, next (SuspendedYield rest) w = yield_star rest) ->
  forall w ws, consume next SuspendedStart (w :: ws)
               = take (S (length ws)) (snapshot w).
Proof.
  intros Hstart Hnext w ws. simpl. rewrite Hstart.
  destruct (snapshot w) as [|a rest]; simpl; [done|].
  by rewrite consume_yield_star.
Qed.

Lemma consume_getTrackersByAge w ws :
  consume getTrackersByAge_next SuspendedStart (w :: ws)
  = take (S (length ws))
      (array_sort (by_elapsed w.1 w.2) (JsMap.values (data w.2))).
Proof.
  by apply (consume_start getTrackersByAge_next
    (fun w => array_sort (by_elapsed w.1 w.2) (JsMap.values (data w.2)))).
Qed.

Lemma consume_getTrackers st ws :
  consume getTrackers_next SuspendedStart (st :: ws)
  = take (S (length ws)) (JsMap.values (data st)).
Proof.
  by apply (consume_start getTrackers_next (fun st => JsMap.values (data st))).
Qed.

Lemma consume_getSenderIds st ws :
  consume getSenderIds_next SuspendedStart (st :: ws)
  = take (S (length ws))
      (fold_left (fun s r => set_add (fromId_of st r) s) (JsMap.values (data st)) []).
Proof.
  by apply (consume_start getSenderIds_next
    (fun st => fold_left (fun s r => set_add (fromId_of st r) s)
                 (JsMap.values (data st)) [])).
Qed.

(** [getValuesByAge] yields the [last], as it is at each pull, of what
    [getTrackersByAge] yields. *)
Lemma consume_getValuesByAge g ws :
  consume getValuesByAge_next g ws
  = zip_with (fun r w => last_of w.2 r) (consume getTrackersByAge_next g ws) ws.
Proof.
  revert g. induction ws as [|w ws IH]; intros g; simpl; [done|].
  unfold getValuesByAge_next.
  destruct (getTrackersByAge_next g w) as [[r|] g']; simpl; [|done].
  by rewrite IH.
Qed.

Lemma consume_getValues g ws :
  consume getValues_next g ws
  = zip_with (fun r w => last_of w r) (consume getTrackers_next g ws) ws.
Proof.
  revert g. induction ws as [|w ws IH]; intros g; simpl; [done|].
  unfold getValues_next.
  destruct (getTrackers_next g w) as [[r|] g']; simpl; [|done].
  by rewrite IH.
Qed.

Lemma zip_with_replicate_r {A B C} (f : A -> B -> C) (l : list A) (b : B) n :
  (length l <= n)%nat ->
  zip_with f l (replicate n b) = (fun a => f a b) <$> l.
Proof.
  revert n. induction l as [|a l IH]; intros [|n] Hn; simpl in *; try done; [lia|].
  f_equal. apply IH. lia.
Qed.

(** C5: consumed to its end in a state of the registry, at time [now],
    [getTrackersByAge()] yields the current trackers, each as often as the
    map holds it, in non-decreasing order of [elapsed]; and
    [getValuesByAge()] yields the [last] of each of them in that order. *)
Theorem getTrackersByAge_sorted now st pulls :
  (size st <= pulls)%nat ->
  let trackers := drain getTrackersByAge_next SuspendedStart (now, st) pulls in
  trackers ≡ₚ JsMap.values (data st) /\
  StronglySorted (not_older now st) trackers /\
  drain getValuesByAge_next SuspendedStart (now, st) pulls = last_of st <$> trackers.
Proof.
  intros Hpulls trackers.
  assert (length (array_sort (by_elapsed now st) (JsMap.values (data st)))
          = size st) as Hlen.
  { rewrite (Permutation_length (array_sort_perm (elapsed_of now st) _)).
    apply length_fmap. }
  assert (trackers = array_sort (by_elapsed now st) (JsMap.values (data st))) as Htr.
  { unfold trackers, drain. destruct pulls as [|pulls]; simpl replicate.
    - simpl. destruct (array_sort _ _); [done | simpl in Hlen; lia].
    - rewrite consume_getTrackersByAge. simpl fst; simpl snd.
      apply take_ge. rewrite length_replicate. lia. }
  split; [|split].
  - rewrite Htr. apply (array_sort_perm (elapsed_of now st)).
  - rewrite Htr. apply (array_sort_sorted (elapsed_of now st)).
  - unfold drain in *. rewrite consume_getValuesByAge.
    fold trackers. rewrite zip_with_replicate_r; [done|]. rewrite Htr. lia.
Qed.

Lemma getTrackersByAge_sorted_witness :
  let trackers := drain getTrackersByAge_next SuspendedStart (20%Z, two_cameras) 5 in
  trackers ≡ₚ JsMap.values (data two_cameras) /\
  StronglySorted (not_older 20 two_cameras) trackers /\
  drain getValuesByAge_next SuspendedStart (20%Z, two_cameras) 5
  = last_of two_cameras <$> trackers.
Proof.
  apply (getTrackersByAge_sorted 20 two_cameras 5).
  vm_compute. lia.
Defined.

(** At 20 ms "cam2-5", seen at 7 ms, is younger than "cam1-5", seen at
    3 ms, and comes first. *)
Example getTrackersByAge_two_cameras :
  drain getTrackersByAge_next SuspendedStart (20%Z, two_cameras) 5 = [1%nat; 0%nat] /\
  drain getTrackers_next SuspendedStart two_cameras 5 = [0%nat; 1%nat].
Proof. split; reflexivity. Qed.

(** ** Snapshots *)

(** The store only grows, and [fromId] of an object never changes. *)
Lemma step_fromId st st' r tr :
  step st st' -> store st !! r = Some tr ->
  exists tr', store st' !! r = Some tr' /\
              PoseTracker.fromId tr' = PoseTracker.fromId tr.
Proof.
  intros [now from pose st0 gid st1 Hseen|now st0|st0] Htr.
  - destruct (seen_returned _ _ _ _ _ _ Hseen) as [Hfrom [p ->]].
    destruct (JsMap.get (nsIdOf from (poseIdOf p)) (data st0)) as [r0|] eqn:Hget.
    + rewrite (seen_present _ _ _ r0) in Hseen by done. injection Hseen as _ <-.
      simpl. destruct (decide (r0 = r)) as [->|Hne].
      * exists (PoseTracker.seen now p tr). by rewrite list_lookup_alter_eq, Htr.
      * exists tr. by rewrite list_lookup_alter_ne.
    + rewrite seen_absent in Hseen by done. injection Hseen as _ <-.
      exists tr. split; [by apply lookup_app_l_Some | done].
  - exists tr. split; [|done]. unfold tick, bind at 1, gets. simpl.
    by rewrite for_of_expire.
  - by exists tr.
Qed.

Lemma rtc_step_fromId st st' r tr :
  rtc step st st' -> store st !! r = Some tr ->
  exists tr', store st' !! r = Some tr' /\
              PoseTracker.fromId tr' = PoseTracker.fromId tr.
Proof.
  intros Hrtc. revert tr. induction Hrtc as [st|st1 st2 st3 Hstep _ IH]; intros tr Htr.
  - by exists tr.
  - destruct (step_fromId _ _ _ _ Hstep Htr) as (tr2 & Htr2 & Heq2).
    destruct (IH _ Htr2) as (tr3 & Htr3 & Heq3).
    exists tr3. split; [done | congruence].
Qed.

Lemma evolution_rtc st ws w : evolution st ws -> w ∈ ws -> rtc step st w.
Proof.
  induction 1 as [st|st w' ws Hrtc _ IH]; intros Hin.
  - by apply elem_of_nil in Hin.
  - apply elem_of_cons in Hin as [->|Hin]; [done|].
    etrans; [exact Hrtc | by apply IH].
Qed.

(** Later states give the trackers of an earlier one the same [fromId]. *)
Lemma evolution_fromId st ws w k r :
  wf st -> evolution st ws -> w ∈ ws -> (k, r) ∈ data st ->
  fromId_of w r = fromId_of st r.
Proof.
  intros [_ Hent _] Hev Hw Hin.
  destruct (Hent k r Hin) as (tr & Htr & _).
  destruct (rtc_step_fromId st w r tr (evolution_rtc _ _ _ Hev Hw) Htr)
    as (tr' & Htr' & Heq).
  unfold fromId_of, deref. by rewrite Htr, Htr'.
Qed.

Lemma fromSender_loop_agree senderId st st' rest :
  (forall r, r ∈ rest -> fromId_of st r = fromId_of st' r) ->
  fromSender_loop senderId st rest = fromSender_loop senderId st' rest.
Proof.
  induction rest as [|r rest IH]; intros Hagree; simpl; [done|].
  rewrite (Hagree r) by (apply elem_of_cons; by left).
  rewrite IH; [done|]. intros r' Hr'. apply Hagree, elem_of_cons. by right.
Qed.

Lemma fromSender_loop_rest senderId st rest :
  match fromSender_loop senderId st rest with
  | (yielded _, g) => exists rest', g = SuspendedYield rest' /\
                                    forall r, r ∈ rest' -> r ∈ rest
  | (done, g) => g = Completed
  end.
Proof.
  induction rest as [|r rest IH]; simpl; [done|].
  destruct (strict_eq (fromId_of st r) senderId).
  - exists rest. split; [done|]. intros r' Hr'. apply elem_of_cons. by right.
  - destruct (fromSender_loop senderId st rest) as [[a|] g]; [|done].
    destruct IH as (rest' & -> & Hsub). exists rest'. split; [done|].
    intros r' Hr'. apply elem_of_cons. right. by apply Hsub.
Qed.

Lemma consume_getFromSender_stable senderId st0 rest ws :
  (forall w r, w ∈ ws -> r ∈ rest -> fromId_of w r = fromId_of st0 r) ->
  consume (getFromSender_next senderId) (SuspendedYield rest) ws
  = consume (getFromSender_next senderId) (SuspendedYield rest)
      (replicate (length ws) st0).
Proof.
  revert rest. induction ws as [|w ws IH]; intros rest Hagree; simpl; [done|].
  rewrite (fromSender_loop_agree senderId w st0 rest).
  2:{ intros r Hr. apply Hagree; [apply elem_of_cons; by left | done]. }
  pose proof (fromSender_loop_rest senderId st0 rest) as Hrest.
  destruct (fromSender_loop senderId st0 rest) as [[a|] g]; [|done].
  destruct Hrest as (rest' & -> & Hsub). f_equal. apply IH.
  intros w' r Hw' Hr. apply Hagree; [apply elem_of_cons; by right | by apply Hsub].
Qed.

Lemma consume_getFromSender senderId st0 ws :
  wf st0 -> evolution st0 ws ->
  consume (getFromSender_next senderId) SuspendedStart (st0 :: ws)
  = drain (getFromSender_next senderId) SuspendedStart st0 (S (length ws)).
Proof.
  intros Hwf Hev. unfold drain. simpl.
  pose proof (fromSender_loop_rest senderId st0 (JsMap.values (data st0))) as Hrest.
  destruct (fromSender_loop senderId st0 (JsMap.values (data st0))) as [[a|] g];
    [|done].
  destruct Hrest as (rest' & -> & Hsub). f_equal.
  apply consume_getFromSender_stable. intros w r Hw Hr.
  apply Hsub, list_elem_of_fmap in Hr as ([k r'] & -> & Hin).
  by eapply evolution_fromId.
Qed.

(** C7, as the code has it: a generator copies the entries of the map at
    its first [next()], where its body starts, and not at the call that
    creates it.  Whatever calls, scans and clears happen between the later
    pulls, [getTrackers], [getTrackersByAge], [getFromSender] and
    [getSenderIds] yield what they would yield if nothing happened after
    the first pull; [getValues] yields, for each tracker that
    [getTrackers] would yield, its [last] as it is at the pull that yields
    it. *)
Theorem snapshot_at_first_pull senderId now0 st0 (tws : list (Z * PosesTracker)) :
  reachable st0 ->
  evolution st0 (snd <$> tws) ->
  let ws := snd <$> tws in
  let n := S (length tws) in
  consume getTrackers_next SuspendedStart (st0 :: ws)
    = drain getTrackers_next SuspendedStart st0 n /\
  consume getTrackersByAge_next SuspendedStart ((now0, st0) :: tws)
    = drain getTrackersByAge_next SuspendedStart (now0, st0) n /\
  consume (getFromSender_next senderId) SuspendedStart (st0 :: ws)
    = drain (getFromSender_next senderId) SuspendedStart st0 n /\
  consume getSenderIds_next SuspendedStart (st0 :: ws)
    = drain getSenderIds_next SuspendedStart st0 n /\
  consume getValues_next SuspendedStart (st0 :: ws)
    = zip_with (fun r w => last_of w r)
        (drain getTrackers_next SuspendedStart st0 n) (st0 :: ws).
Proof.
  intros Hst Hev ws n.
  assert (length ws = length tws) as Hlen by apply length_fmap.
  assert (consume getTrackers_next SuspendedStart (st0 :: ws)
          = drain getTrackers_next SuspendedStart st0 n) as Htrackers.
  { unfold drain, n. simpl replicate. rewrite !consume_getTrackers.
    by rewrite length_replicate, Hlen. }
  split; [done|]. split.
  { unfold drain, n. simpl replicate. rewrite !consume_getTrackersByAge.
    by rewrite length_replicate. }
  split.
  { unfold n. rewrite <- Hlen.
    apply consume_getFromSender; [by apply reachable_wf | done]. }
  split.
  { unfold drain, n. simpl replicate. rewrite !consume_getSenderIds.
    by rewrite length_replicate, Hlen. }
  by rewrite consume_getValues, Htrackers.
Qed.

Lemma evolution_two_cameras :
  evolution two_cameras [two_cameras; two_cameras_later].
Proof.
  apply evolution_cons; [apply rtc_refl|].
  apply evolution_cons; [|apply evolution_nil].
  apply rtc_once. by apply (step_seen 20 (value "cam2") (value pose5_later) _ "cam2-5").
Qed.

Lemma snapshot_at_first_pull_witness :
  let st0 := two_cameras in
  let tws := [(15%Z, two_cameras); (25%Z, two_cameras_later)] in
  let ws := snd <$> tws in
  let n := S (length tws) in
  consume getTrackers_next SuspendedStart (st0 :: ws)
    = drain getTrackers_next SuspendedStart st0 n /\
  consume getTrackersByAge_next SuspendedStart ((10%Z, st0) :: tws)
    = drain getTrackersByAge_next SuspendedStart (10%Z, st0) n /\
  consume (getFromSender_next (value "cam2")) SuspendedStart (st0 :: ws)
    = drain (getFromSender_next (value "cam2")) SuspendedStart st0 n /\
  consume getSenderIds_next SuspendedStart (st0 :: ws)
    = drain getSenderIds_next SuspendedStart st0 n /\
  consume getValues_next SuspendedStart (st0 :: ws)
    = zip_with (fun r w => last_of w r)
        (drain getTrackers_next SuspendedStart st0 n) (st0 :: ws).
Proof.
  apply (snapshot_at_first_pull (value "cam2") 10 two_cameras
           [(15%Z, two_cameras); (25%Z, two_cameras_later)]).
  - apply reachable_seen_all.
  - apply evolution_two_cameras.
Defined.

(** C7 as stated fails for [getValues]: the sample registry is pulled
    once, then [seen("cam2", pose5_later)] happens, then it is pulled
    again; the second element is the pose of that call and not the pose
    the tracker held when the entries were copied. *)
Lemma snapshot_counterexample :
  evolution two_cameras [two_cameras; two_cameras_later] /\
  consume getValues_next SuspendedStart [two_cameras; two_cameras_later]
  <> drain getValues_next SuspendedStart two_cameras 2.
Proof.
  split; [apply evolution_two_cameras|].
  vm_compute. intros H. discriminate H.
Qed.

Example getValues_interleaved :
  consume getValues_next SuspendedStart [two_cameras; two_cameras_later]
    = [Some pose5; Some pose5_later] /\
  drain getValues_next SuspendedStart two_cameras 2 = [Some pose5; Some pose5].
Proof. split; reflexivity. Qed.

(** A call that happens after [getTrackers()] was called and before its
    first [next()] is seen by the generator: created on an empty registry
    and first pulled after the two sample calls, it yields their
    trackers. *)
Example getTrackers_first_pull :
  consume getTrackers_next SuspendedStart [two_cameras; two_cameras]
    = [0%nat; 1%nat] /\
  drain getTrackers_next SuspendedStart (constructor no_options) 2 = [].
Proof. split; reflexivity. Qed.

(** ** Geometry helpers *)

Section GeometryFacts.
Variable getKeypoint : Pose -> string -> option Points.Point.

Lemma lineBetween_Some pose a b l :
  lineBetween getKeypoint pose a b = Some l
  <-> getKeypoint pose a = Some (Lines.a l) /\ getKeypoint pose b = Some (Lines.b l).
Proof.
  unfold lineBetween.
  destruct (getKeypoint pose a) as [pa|], (getKeypoint pose b) as [pb|];
    destruct l as [la lb]; simpl; split;
    try (intros [= -> ->]; done); try (intros [[= ->] [= ->]]; done);
    try (intros [? ?]; done); done.
Qed.

Lemma lineBetween_None pose a b :
  lineBetween getKeypoint pose a b = None
  <-> getKeypoint pose a = None \/ getKeypoint pose b = None.
Proof.
  unfold lineBetween.
  destruct (getKeypoint pose a) as [pa|], (getKeypoint pose b) as [pb|];
    simpl; intuition discriminate.
Qed.

End GeometryFacts.




(** Rounding alone does it too: with left shoulder at x = 1 and right hip
    at x = 2^-60 the first midpoint rounds to 1/2 and the center returned
    has x = 1/4, where the mean is 1/4 + 2^-62. *)
Example roughCenter_rounds :
  roughCenter Coco.getKeypoint fine_pose
  = Some {| Points.x := Double.pow2 (-2); Points.y := Double.of_Z 0 |} /\
  is_center {| Points.x := Double.pow2 (-2); Points.y := Double.of_Z 0 |}
    (point_at 1 0) {| Points.x := Double.pow2 (-60); Points.y := Double.of_Z 0 |}
    (point_at 0 0) (point_at 0 0) = false.
Proof. split; vm_compute; reflexivity. Qed.

(** On the sample pose the diagonals have midpoints (5/2, 4) and (3, 9/2);
    the center returned is (11/4, 17/4), here exactly their mean; without
    the left hip there is no center. *)
Example roughCenter_chest_pose :
  roughCenter Coco.getKeypoint chest_pose
  = Some {| Points.x := Double.div (Double.of_Z 11) (Double.of_Z 4);
            Points.y := Double.div (Double.of_Z 17) (Double.of_Z 4) |} /\
  is_center {| Points.x := Double.div (Double.of_Z 11) (Double.of_Z 4);
               Points.y := Double.div (Double.of_Z 17) (Double.of_Z 4) |}
    (point_at 4 2) (point_at 1 6) (point_at 2 2) (point_at 4 7) = true /\
  rounds_nowhere (Double.of_Z 4) (Double.of_Z 1) (Double.of_Z 2) (Double.of_Z 4) = true /\
  rounds_nowhere (Double.of_Z 2) (Double.of_Z 6) (Double.of_Z 2) (Double.of_Z 7) = true /\
  roughCenter Coco.getKeypoint no_left_hip = None.
Proof. repeat split; vm_compute; reflexivity. Qed.

(** * Further properties *)

(** ** What the registry keeps *)

Lemma values_app {V} (m m' : list (string * V)) :
  JsMap.values (m ++ m') = JsMap.values m ++ JsMap.values m'.
Proof. apply map_app. Qed.

Lemma added_details_app evs evs' :
  added_details (evs ++ evs') = added_details evs ++ added_details evs'.
Proof. apply omap_app. Qed.

Lemma expired_details_app evs evs' :
  expired_details (evs ++ evs') = expired_details evs ++ expired_details evs'.
Proof. apply omap_app. Qed.

Lemma added_details_expired (l : list (string * ref)) :
  added_details (map (fun e => expired e.2) l) = [].
Proof. induction l as [|e l IH]; simpl; [done|]. exact IH. Qed.

Lemma expired_details_expired (l : list (string * ref)) :
  expired_details (map (fun e => expired e.2) l) = JsMap.values l.
Proof. induction l as [|e l IH]; simpl; [done|]. f_equal. exact IH. Qed.

Lemma values_filter_elem {V} (P : string * V -> bool) (m : list (string * V)) v :
  v ∈ JsMap.values (List.filter P m) -> v ∈ JsMap.values m.
Proof.
  intros ([k v'] & -> & Hin)%list_elem_of_fmap.
  apply list_elem_of_In, filter_In in Hin as [Hin _].
  by apply list_elem_of_fmap_2, list_elem_of_In.
Qed.

Lemma NoDup_values_filter {V} (P : string * V -> bool) (m : list (string * V)) :
  NoDup (JsMap.values m) -> NoDup (JsMap.values (List.filter P m)).
Proof.
  induction m as [|[k v] m IH]; simpl; [done|].
  rewrite NoDup_cons. intros [Hv Hnd].
  destruct (P (k, v)); simpl; [|by apply IH].
  apply NoDup_cons. split; [|by apply IH].
  intros Hin. by apply Hv, (values_filter_elem P).
Qed.

(** With distinct values, an entry selected by [P] has a value that no
    entry rejected by [P] has. *)
Lemma values_filter_disjoint {V} (P : string * V -> bool) (m : list (string * V)) v :
  NoDup (JsMap.values m) ->
  v ∈ JsMap.values (List.filter P m) ->
  v ∉ JsMap.values (List.filter (fun e => negb (P e)) m).
Proof.
  induction m as [|[k v'] m IH]; simpl.
  - intros _ H. by apply elem_of_nil in H.
  - rewrite NoDup_cons. intros [Hv Hnd].
    destruct (P (k, v')); simpl.
    + intros [->|Hin]%elem_of_cons.
      * intros Hin. by apply Hv, (values_filter_elem (fun e => negb (P e))).
      * by apply IH.
    + intros Hin [->|Hin']%elem_of_cons.
      * by apply Hv, (values_filter_elem P).
      * by apply (IH Hnd Hin).
Qed.

Lemma tidy_constructor o : tidy (constructor o).
Proof.
  split; simpl; try apply NoDup_nil_2; try done;
    intros r H; by apply elem_of_nil in H.
Qed.

Lemma tidy_st_added now from p st : tidy st -> tidy (st_added now from p st).
Proof.
  intros [Hrefs Hlive Hadd Hexp Hgone]. split; simpl.
  - rewrite values_app. apply NoDup_app. split; [done|]. split; [|apply NoDup_singleton].
    intros r Hr ->%list_elem_of_singleton. apply Hlive in Hr. simpl in Hr. lia.
  - intros r. rewrite values_app, length_app, elem_of_app. simpl.
    intros [Hr| ->%list_elem_of_singleton]; [apply Hlive in Hr|]; lia.
  - rewrite added_details_app, Hadd, length_app. simpl.
    by rewrite Nat.add_1_r, seq_S.
  - rewrite expired_details_app. simpl. by rewrite app_nil_r.
  - intros r. rewrite expired_details_app, app_nil_r. simpl.
    intros Hr. destruct (Hgone r Hr) as [Hnot Hlt].
    rewrite values_app, length_app, elem_of_app. simpl. split; [|lia].
    intros [?| ->%list_elem_of_singleton]; [done | lia].
Qed.

Lemma tidy_st_updated now p r st : tidy st -> tidy (st_updated now p r st).
Proof.
  intros [Hrefs Hlive Hadd Hexp Hgone].
  split; simpl; rewrite ?length_alter; done.
Qed.

Lemma tidy_st_scanned now st : tidy st -> tidy (st_scanned now st).
Proof.
  intros [Hrefs Hlive Hadd Hexp Hgone]. split; simpl.
  - by apply NoDup_values_filter.
  - intros r Hr. by eapply Hlive, values_filter_elem.
  - by rewrite added_details_app, added_details_expired, app_nil_r.
  - rewrite expired_details_app, expired_details_expired. apply NoDup_app.
    split; [done|]. split; [|by apply NoDup_values_filter].
    intros r Hr Hin. destruct (Hgone r Hr) as [Hnot _].
    by eapply Hnot, values_filter_elem.
  - intros r. rewrite expired_details_app, expired_details_expired, elem_of_app.
    intros [Hr|Hr].
    + destruct (Hgone r Hr) as [Hnot Hlt]. split; [|done].
      intros Hin. by eapply Hnot, values_filter_elem.
    + split; [by apply values_filter_disjoint|].
      by eapply Hlive, values_filter_elem.
Qed.

Lemma tidy_step st st' : step st st' -> wf st -> tidy st -> tidy st'.
Proof.
  intros [now from pose st0 gid st1 Hseen|now st0|st0] Hwf Htidy.
  - destruct (seen_returned _ _ _ _ _ _ Hseen) as [Hfrom [p ->]].
    destruct (JsMap.get (nsIdOf from (poseIdOf p)) (data st0)) as [r0|] eqn:Hget.
    + rewrite (seen_present _ _ _ r0) in Hseen by done. injection Hseen as _ <-.
      by apply tidy_st_updated.
    + rewrite seen_absent in Hseen by done. injection Hseen as _ <-.
      by apply tidy_st_added.
  - rewrite tick_scanned by apply Hwf. by apply tidy_st_scanned.
  - destruct Htidy as [Hrefs Hlive Hadd Hexp Hgone]. split; simpl; try done.
    + apply NoDup_nil_2.
    + intros r H. by apply elem_of_nil in H.
    + intros r Hr. split; [apply not_elem_of_nil | by apply Hgone].
Qed.

Lemma reachable_tidy st : reachable st -> tidy st.
Proof.
  intros [o Hrtc].
  assert (wf st /\ tidy st) as [_ H]; [|done].
  revert st Hrtc. apply rtc_ind_r.
  - split; [apply wf_constructor | apply tidy_constructor].
  - intros st1 st2 _ Hstep [Hwf Htidy]. split; [by eapply wf_step | by eapply tidy_step].
Qed.

Lemma reachable_tick now st : reachable st -> reachable (tick now st).2.
Proof. intros Hst. eapply reachable_step; [done | apply step_tick]. Qed.

Lemma reachable_clear st : reachable st -> reachable (clear st).2.
Proof. intros Hst. eapply reachable_step; [done | apply step_clear]. Qed.

Lemma reachable_two_cameras_scanned : reachable two_cameras_scanned.
Proof. apply reachable_tick, reachable_seen_all. Qed.

(** X1: in every state of a registry no tracker was announced by [added]
    twice, every tracker in the map was announced, and so was every
    tracker reported [expired]. *)
Theorem added_once st :
  reachable st ->
  NoDup (added_details (events st)) /\
  (forall r, r ∈ JsMap.values (data st) -> r ∈ added_details (events st)) /\
  (forall r, r ∈ expired_details (events st) -> r ∈ added_details (events st)).
Proof.
  intros [Hrefs Hlive Hadd Hexp Hgone]%reachable_tidy. rewrite Hadd.
  split; [apply NoDup_seq|]. split.
  - intros r Hr. apply elem_of_seq. apply Hlive in Hr. lia.
  - intros r Hr. apply elem_of_seq. apply Hgone in Hr as [_ Hr]. lia.
Qed.

Lemma added_once_witness :
  NoDup (added_details (events two_cameras_scanned)) /\
  (forall r, r ∈ JsMap.values (data two_cameras_scanned) ->
     r ∈ added_details (events two_cameras_scanned)) /\
  (forall r, r ∈ expired_details (events two_cameras_scanned) ->
     r ∈ added_details (events two_cameras_scanned)).
Proof.
  apply (added_once two_cameras_scanned).
  apply reachable_two_cameras_scanned.
Defined.

(** X2: in every state of a registry no tracker was reported [expired]
    twice, and a tracker that was reported [expired] is not in the map:
    once expired, a tracker object never comes back. *)
Theorem expired_once st :
  reachable st ->
  NoDup (expired_details (events st)) /\
  (forall r, r ∈ expired_details (events st) -> r ∉ JsMap.values (data st)).
Proof.
  intros [Hrefs Hlive Hadd Hexp Hgone]%reachable_tidy.
  split; [done|]. intros r Hr. by apply Hgone.
Qed.

Lemma expired_once_witness :
  NoDup (expired_details (events two_cameras_scanned)) /\
  (forall r, r ∈ expired_details (events two_cameras_scanned) ->
     r ∉ JsMap.values (data two_cameras_scanned)).
Proof.
  apply (expired_once two_cameras_scanned).
  apply reachable_two_cameras_scanned.
Defined.

(** Distinct numbers below [n] are at most [n]. *)
Lemma NoDup_below_length (l : list nat) n :
  NoDup l -> (forall r, r ∈ l -> (r < n)%nat) -> (length l <= n)%nat.
Proof.
  intros Hnd Hlt.
  assert (length l <= length (seq 0%nat n))%nat as Hle.
  { apply submseteq_length, NoDup_submseteq; [done|].
    intros r Hr. apply elem_of_seq. apply Hlt in Hr. lia. }
  by rewrite length_seq in Hle.
Qed.

(** X3: in every state of a registry, the trackers in the map and the
    trackers reported [expired] are together no more than the trackers
    announced by [added]: [size] is at most the number of [added] events
    less the number of [expired] events. *)
Theorem size_accounting st :
  reachable st ->
  (size st + length (expired_details (events st))
   <= length (added_details (events st)))%nat.
Proof.
  intros [Hrefs Hlive Hadd Hexp Hgone]%reachable_tidy.
  rewrite Hadd, length_seq. unfold size, JsMap.size.
  rewrite <- (length_fmap snd (data st)), <- length_app.
  apply NoDup_below_length.
  - apply NoDup_app. split; [done|]. split; [|done].
    intros r Hr Hexpd. by apply (Hgone r Hexpd).
  - intros r [Hr|Hr]%elem_of_app; [by apply Hlive | by apply Hgone].
Qed.

Lemma size_accounting_witness :
  (size two_cameras_scanned + length (expired_details (events two_cameras_scanned))
   <= length (added_details (events two_cameras_scanned)))%nat.
Proof.
  apply (size_accounting two_cameras_scanned).
  apply reachable_two_cameras_scanned.
Defined.

(** ** More on [seen] *)

Lemma get_app_other {V} (m : list (string * V)) k k' v :
  k <> k' -> JsMap.get k (m ++ [(k', v)]) = JsMap.get k m.
Proof.
  intros Hne. induction m as [|[k2 v2] m IH]; simpl.
  - by destruct (String.eqb_spec k k').
  - by destruct (String.eqb k k2).
Qed.

(** With distinct values, two keys that lead to one value are one key. *)
Lemma NoDup_values_key {V} (m : list (string * V)) k k' v :
  NoDup (JsMap.values m) -> (k, v) ∈ m -> (k', v) ∈ m -> k = k'.
Proof.
  induction m as [|[k0 v0] m IH]; simpl.
  - intros _ H. by apply elem_of_nil in H.
  - rewrite NoDup_cons. intros [Hv Hnd] [H1|H1]%elem_of_cons [H2|H2]%elem_of_cons.
    + congruence.
    + injection H1 as -> ->. exfalso. apply Hv.
      change v0 with (snd (k', v0)). by apply list_elem_of_fmap_2.
    + injection H2 as -> ->. exfalso. apply Hv.
      change v0 with (snd (k, v0)). by apply list_elem_of_fmap_2.
    + by apply IH.
Qed.

(** X4: [seen] returns exactly when [from] is not [undefined] and [pose]
    is an object, and what it returns is [from + "-" + poseId]; with
    [pose] [null] (and [from] given) it throws a [TypeError], not the
    [Error] of the guards; and whenever it throws, the state is as it was
    before the call. *)
Theorem seen_outcome now from pose st :
  ((exists gid st', seen now from pose st = (Returned gid, st'))
   <-> is_undefined from = false /\ exists p, pose = value p) /\
  (forall p gid st', pose = value p -> seen now from pose st = (Returned gid, st') ->
     gid = nsIdOf from (poseIdOf p)) /\
  (is_undefined from = false -> pose = null ->
     seen now from pose st = (Threw TypeError, st)) /\
  (forall e st', seen now from pose st = (Threw e, st') -> st' = st).
Proof.
  split; [|split; [|split]].
  - split.
    + intros (gid & st' & Hseen). by eapply seen_returned.
    + intros [Hfrom [p ->]].
      destruct (JsMap.get (nsIdOf from (poseIdOf p)) (data st)) as [r|] eqn:Hget.
      * rewrite (seen_present _ _ _ r) by done. by eexists _, _.
      * rewrite seen_absent by done. by eexists _, _.
  - intros p gid st' -> Hseen.
    destruct (seen_returned _ _ _ _ _ _ Hseen) as [Hfrom _].
    destruct (JsMap.get (nsIdOf from (poseIdOf p)) (data st)) as [r|] eqn:Hget.
    + rewrite (seen_present _ _ _ r) in Hseen by done. by injection Hseen as <- _.
    + rewrite seen_absent in Hseen by done. by injection Hseen as <- _.
  - intros Hfrom ->. by apply seen_pose_null.
  - intros e st' Hseen. destruct (is_undefined from) eqn:Hfrom.
    { destruct from; try discriminate Hfrom. by injection Hseen as _ <-. }
    destruct pose as [| |p].
    + rewrite seen_pose_undefined in Hseen by done. by injection Hseen as _ <-.
    + rewrite seen_pose_null in Hseen by done. by injection Hseen as _ <-.
    + destruct (JsMap.get (nsIdOf from (poseIdOf p)) (data st)) as [r|] eqn:Hget.
      * by rewrite (seen_present _ _ _ r) in Hseen.
      * by rewrite seen_absent in Hseen.
Qed.

(** What a returning call leaves under the key it returns. *)
Lemma seen_registers now from p st gid st' :
  wf st ->
  seen now from (value p) st = (Returned gid, st') ->
  exists r tr,
    JsMap.get gid (data st') = Some r /\ store st' !! r = Some tr /\
    PoseTracker.last tr = Some p /\ PoseTracker.seenAt tr = now /\
    (forall r', r' <> r -> (r' < length (store st))%nat ->
       store st' !! r' = store st !! r') /\
    (forall gid', gid' <> gid ->
       JsMap.get gid' (data st') = JsMap.get gid' (data st)) /\
    (JsMap.get gid (data st) = None -> r = length (store st)) /\
    (forall r0, JsMap.get gid (data st) = Some r0 -> r = r0).
Proof.
  intros [_ Hent _] Hseen.
  destruct (seen_returned _ _ _ _ _ _ Hseen) as [Hfrom _].
  destruct (JsMap.get (nsIdOf from (poseIdOf p)) (data st)) as [r|] eqn:Hget.
  - rewrite (seen_present _ _ _ r) in Hseen by done. injection Hseen as <- <-.
    destruct (Hent _ _ (get_Some_elem _ _ _ Hget)) as (tr & Htr & _).
    exists r, (PoseTracker.seen now p tr). simpl.
    split; [done|]. split; [by rewrite list_lookup_alter_eq, Htr|].
    split; [done|]. split; [done|].
    split; [intros r' Hne _; by rewrite list_lookup_alter_ne|].
    split; [done|]. split; [by rewrite Hget | rewrite Hget; by intros r0 [= ->]].
  - rewrite seen_absent in Hseen by done. injection Hseen as <- <-.
    exists (length (store st)),
      (PoseTracker.seen now p (PoseTracker.new from (poseIdOf p) (options st))).
    split; [by apply get_st_added|]. split; [apply deref_st_added|].
    split; [done|]. split; [done|].
    split; [intros r' _ Hlt; simpl; by rewrite lookup_app_l|].
    split; [intros gid' Hne; simpl; by apply get_app_other|].
    split; [done | by rewrite Hget].
Qed.

(** X5: after a call of [seen] that returns, the returned guid leads to a
    tracker whose [last] is the pose of the call and whose [elapsed], read
    at the time of the call, is 0: [getValueByGuid] of the returned guid
    is that pose. *)
Theorem seen_then_lookup now from pose st gid st' :
  reachable st ->
  seen now from pose st = (Returned gid, st') ->
  exists p r,
    pose = value p /\
    getTrackerByGuid gid st' = Some r /\
    getValueByGuid gid st' = Some p /\
    elapsed_of now st' r = 0.
Proof.
  intros Hwf%reachable_wf Hseen.
  destruct (seen_returned _ _ _ _ _ _ Hseen) as [_ [p ->]].
  destruct (seen_registers _ _ _ _ _ _ Hwf Hseen)
    as (r & tr & Hget & Htr & Hlast & Hat & _).
  exists p, r. unfold getTrackerByGuid, getValueByGuid, last_of, elapsed_of, deref.
  rewrite Hget, Htr. simpl. split; [done|]. split; [done|]. split; [done|].
  unfold PoseTracker.elapsed. lia.
Qed.

Lemma seen_then_lookup_witness :
  exists p r,
    value pose5_later = value p /\
    getTrackerByGuid "cam2-5" two_cameras_later = Some r /\
    getValueByGuid "cam2-5" two_cameras_later = Some p /\
    elapsed_of 20 two_cameras_later r = 0.
Proof.
  apply (seen_then_lookup 20 (value "cam2") (value pose5_later) two_cameras
           "cam2-5" two_cameras_later).
  - apply reachable_seen_all.
  - reflexivity.
Defined.

(** X6: a call of [seen] that returns touches one tracker only.  Every
    other guid leads to the tracker it led to, with the [last] it had, and
    every other tracker object created before the call, also one that is
    no longer in the map, is as it was. *)
Theorem seen_frame now from pose st gid st' :
  reachable st ->
  seen now from pose st = (Returned gid, st') ->
  (forall gid', gid' <> gid ->
     getTrackerByGuid gid' st' = getTrackerByGuid gid' st /\
     getValueByGuid gid' st' = getValueByGuid gid' st) /\
  (forall r', getTrackerByGuid gid st' <> Some r' ->
     (r' < length (store st))%nat -> deref st' r' = deref st r').
Proof.
  intros Hst Hseen. pose proof (reachable_wf _ Hst) as Hwf.
  pose proof (reachable_tidy _ Hst) as [Hrefs Hlive _ _ _].
  destruct (seen_returned _ _ _ _ _ _ Hseen) as [_ [p ->]].
  destruct (seen_registers _ _ _ _ _ _ Hwf Hseen)
    as (r & tr & Hget & Htr & _ & _ & Hobj & Hkeys & Hnew & Hold).
  unfold getTrackerByGuid, getValueByGuid, last_of, deref. split.
  - intros gid' Hne. rewrite (Hkeys gid' Hne). split; [done|].
    destruct (JsMap.get gid' (data st)) as [r'|] eqn:Hget'; [|done].
    rewrite Hobj; [done| |].
    + intros ->. destruct (JsMap.get gid (data st)) as [r0|] eqn:Hget0.
      * specialize (Hold r0 eq_refl) as ->. apply Hne.
        apply (NoDup_values_key (data st) gid' gid r0 Hrefs);
          by apply get_Some_elem.
      * specialize (Hnew eq_refl). apply get_Some_elem in Hget'.
        assert (r ∈ JsMap.values (data st)) as Hin.
        { change r with (snd (gid', r)). by apply list_elem_of_fmap_2. }
        apply Hlive in Hin. lia.
    + apply Hlive. apply get_Some_elem in Hget'.
      change r' with (snd (gid', r')). by apply list_elem_of_fmap_2.
  - intros r' Hne Hlt. apply Hobj; [|done]. intros ->. by apply Hne.
Qed.

Lemma seen_frame_witness :
  (forall gid', gid' <> "cam2-5" ->
     getTrackerByGuid gid' two_cameras_later = getTrackerByGuid gid' two_cameras /\
     getValueByGuid gid' two_cameras_later = getValueByGuid gid' two_cameras) /\
  (forall r', getTrackerByGuid "cam2-5" two_cameras_later <> Some r' ->
     (r' < length (store two_cameras))%nat ->
     deref two_cameras_later r' = deref two_cameras r').
Proof.
  apply (seen_frame 20 (value "cam2") (value pose5_later) two_cameras
           "cam2-5" two_cameras_later).
  - apply reachable_seen_all.
  - reflexivity.
Defined.

(** ** More on the scan *)

Lemma get_filter {V} (Q : string * V -> bool) (m : list (string * V)) k :
  NoDup (JsMap.keys m) ->
  JsMap.get k (List.filter Q m)
  = match JsMap.get k m with
    | Some v => if Q (k, v) then Some v else None
    | None => None
    end.
Proof.
  induction m as [|[k0 v0] m IH]; simpl; [done|].
  rewrite NoDup_cons. intros [Hk Hnd].
  destruct (String.eqb_spec k k0) as [->|Hne].
  - destruct (Q (k0, v0)) eqn:HQ; simpl.
    + by rewrite String.eqb_refl.
    + apply get_None. intros ([k v] & Heq & Hin)%list_elem_of_fmap.
      simpl in Heq; subst k. apply Hk.
      apply list_elem_of_In, filter_In in Hin as [Hin _].
      change k0 with (fst (k0, v)). by apply list_elem_of_fmap_2, list_elem_of_In.
  - destruct (Q (k0, v0)); simpl; [|by apply IH].
    destruct (String.eqb_spec k k0); [done | by apply IH].
Qed.

Lemma filter_absorb {A} (P P' : A -> bool) (l : list A) :
  (forall a, P a = true -> P' a = true) ->
  List.filter (fun a => negb (P' a)) (List.filter (fun a => negb (P a)) l)
  = List.filter (fun a => negb (P' a)) l.
Proof.
  intros Himp. induction l as [|a l IH]; simpl; [done|].
  destruct (P a) eqn:HP; simpl.
  - by rewrite (Himp a HP).
  - destruct (P' a); simpl; by rewrite IH.
Qed.

Lemma filter_rejected {A} (P : A -> bool) (l : list A) :
  List.filter P (List.filter (fun a => negb (P a)) l) = [].
Proof.
  induction l as [|a l IH]; simpl; [done|].
  destruct (P a) eqn:HP; simpl; [done|]. by rewrite HP.
Qed.

(** Time only makes trackers older. *)
Lemma is_expired_later now now' st e :
  (now <= now')%Z -> is_expired now st e = true -> is_expired now' st e = true.
Proof.
  unfold is_expired, elapsed_of, PoseTracker.elapsed. intros Hle.
  destruct (deref st e.2) as [tr|]; simpl; [|done].
  rewrite !Z.gtb_gt. lia.
Qed.

(** X7: a scan right after a scan at the same time changes nothing and
    dispatches nothing; and a scan at a later time after an earlier scan
    leaves the map the later scan alone would leave. *)
Theorem tick_again now now' st :
  reachable st -> (now <= now')%Z ->
  tick now (tick now st).2 = (Returned tt, (tick now st).2) /\
  data (tick now' (tick now st).2).2 = data (tick now' st).2.
Proof.
  intros [Hnd _ _]%reachable_wf Hle.
  rewrite (tick_scanned now st Hnd). simpl.
  assert (NoDup (JsMap.keys (data (st_scanned now st)))) as Hnd'.
  { by apply NoDup_keys_filter. }
  rewrite !tick_scanned by done. split.
  - f_equal. unfold st_scanned at 1. simpl.
    change (is_expired now (st_scanned now st)) with (is_expired now st).
    rewrite filter_rejected, app_nil_r.
    rewrite (filter_absorb (is_expired now st) (is_expired now st)) by done.
    done.
  - simpl. change (is_expired now' (st_scanned now st)) with (is_expired now' st).
    apply filter_absorb. intros e. by apply is_expired_later.
Qed.

Lemma tick_again_witness :
  tick 10005 (tick 10005 two_cameras).2 = (Returned tt, (tick 10005 two_cameras).2) /\
  data (tick 10008 (tick 10005 two_cameras).2).2 = data (tick 10008 two_cameras).2.
Proof.
  apply (tick_again 10005 10008 two_cameras).
  - apply reachable_seen_all.
  - lia.
Defined.

Lemma seen_options now from pose st : options (seen now from pose st).2 = options st.
Proof.
  destruct from as [| |s] eqn:Hf; [done| |];
    (destruct pose as [| |p]; [done|done|]);
    (destruct (JsMap.get (nsIdOf from (poseIdOf p)) (data st)) as [r|] eqn:Hget;
     subst from;
     [ by rewrite (seen_present _ _ _ r) | by rewrite seen_absent ]).
Qed.

(** X8: a tracker seen at time [now] is still registered under its guid
    after a scan at time [now'] exactly when [now' - now] is at most
    [maxAgeMs]; otherwise the scan removes it. *)
Theorem seen_survives now now' from pose st gid st' :
  reachable st ->
  seen now from pose st = (Returned gid, st') ->
  getTrackerByGuid gid (tick now' st').2
  = if (now' - now >? maxAgeMs (options st))%Z then None
    else getTrackerByGuid gid st'.
Proof.
  intros Hst Hseen.
  assert (wf st') as Hwf'.
  { eapply wf_step; [by eapply step_seen | by apply reachable_wf]. }
  destruct (seen_returned _ _ _ _ _ _ Hseen) as [_ [p ->]].
  destruct (seen_registers _ _ _ _ _ _ (reachable_wf _ Hst) Hseen)
    as (r & tr & Hget & Htr & _ & Hat & _).
  assert (options st' = options st) as Hopt.
  { change st' with (Returned gid, st').2. rewrite <- Hseen. apply seen_options. }
  unfold getTrackerByGuid. rewrite tick_scanned by apply Hwf'. simpl.
  rewrite get_filter by apply Hwf'. rewrite Hget.
  unfold is_expired, elapsed_of, deref, PoseTracker.elapsed. simpl.
  rewrite Htr. simpl. rewrite Hat, Hopt.
  by destruct (now' - now >? maxAgeMs (options st))%Z.
Qed.

Lemma seen_survives_witness :
  getTrackerByGuid "cam2-5" (tick 10021 two_cameras_later).2
  = if (10021 - 20 >? maxAgeMs (options two_cameras))%Z then None
    else getTrackerByGuid "cam2-5" two_cameras_later.
Proof.
  apply (seen_survives 20 10021 (value "cam2") (value pose5_later) two_cameras
           "cam2-5" two_cameras_later).
  - apply reachable_seen_all.
  - reflexivity.
Defined.

(** A tracker object that is not in the map does not come back, and no
    [expired] event is dispatched for it from then on. *)
Lemma step_out st st' r :
  step st st' -> wf st ->
  (r < length (store st))%nat -> r ∉ JsMap.values (data st) ->
  (r < length (store st'))%nat /\ (r ∉ JsMap.values (data st')) /\
  (r ∈ expired_details (events st') -> r ∈ expired_details (events st)).
Proof.
  intros [now from pose st0 gid st1 Hseen|now st0|st0] Hwf Hlt Hout.
  - destruct (seen_returned _ _ _ _ _ _ Hseen) as [Hfrom [p ->]].
    destruct (JsMap.get (nsIdOf from (poseIdOf p)) (data st0)) as [r0|] eqn:Hget.
    + rewrite (seen_present _ _ _ r0) in Hseen by done. injection Hseen as _ <-.
      simpl. by rewrite length_alter.
    + rewrite seen_absent in Hseen by done. injection Hseen as _ <-. simpl.
      rewrite length_app, values_app, expired_details_app, app_nil_r. simpl.
      split; [lia|]. split; [|done].
      intros [?| ->%list_elem_of_singleton]%elem_of_app; [done | lia].
  - rewrite tick_scanned by apply Hwf. simpl. split; [done|]. split.
    + intros Hin. by eapply Hout, values_filter_elem.
    + rewrite expired_details_app, expired_details_expired.
      intros [?|Hin]%elem_of_app; [done|].
      exfalso. by eapply Hout, values_filter_elem.
  - simpl. split; [done|]. split; [apply not_elem_of_nil | done].
Qed.

Lemma rtc_step_out st st' r :
  rtc step st st' -> wf st ->
  (r < length (store st))%nat -> r ∉ JsMap.values (data st) ->
  (r ∉ JsMap.values (data st')) /\
  (r ∈ expired_details (events st') -> r ∈ expired_details (events st)).
Proof.
  induction 1 as [st|st1 st2 st3 Hstep _ IH]; intros Hwf Hlt Hout; [done|].
  destruct (step_out _ _ r Hstep Hwf Hlt Hout) as (Hlt2 & Hout2 & Hexp2).
  destruct (IH (wf_step _ _ Hstep Hwf) Hlt2 Hout2) as [Hout3 Hexp3].
  split; [done|]. intros H. by apply Hexp2, Hexp3.
Qed.

(** X9: a tracker removed by [clear()] is never reported [expired], at
    the clear or at any later time, and never is in the map again,
    whatever calls, scans and clears follow. *)
Theorem cleared_never_expire st st2 r :
  reachable st ->
  r ∈ JsMap.values (data st) ->
  rtc step (clear st).2 st2 ->
  (r ∉ JsMap.values (data st2)) /\ (r ∉ expired_details (events st2)).
Proof.
  intros Hst Hr Hrtc.
  pose proof (reachable_tidy _ Hst) as [_ Hlive _ _ Hgone].
  destruct (rtc_step_out (clear st).2 st2 r Hrtc) as [Hout Hexp].
  - by apply wf_clear, reachable_wf.
  - by apply Hlive.
  - apply not_elem_of_nil.
  - split; [done|]. intros Hin. apply Hexp in Hin. by apply (Hgone r Hin).
Qed.

Lemma cleared_never_expire_witness :
  (1%nat ∉ JsMap.values (data cleared_and_reused)) /\
  (1%nat ∉ expired_details (events cleared_and_reused)).
Proof.
  apply (cleared_never_expire two_cameras cleared_and_reused 1%nat).
  - apply reachable_seen_all.
  - vm_compute. apply list_elem_of_In. simpl. auto.
  - apply (rtc_l _ _ (after_seen (clear two_cameras).2 (call 30 "cam1" 5))).
    + apply (step_seen 30 (value "cam1") (value pose5) _ "cam1-5"). reflexivity.
    + apply rtc_once. apply step_tick.
Defined.

(** After the clear "cam1-5" is registered anew, as a third object, and
    that one expires at the late scan; the two cleared objects do not. *)
Example cleared_and_reused_events :
  events cleared_and_reused = [added 0%nat; added 1%nat; added 2%nat; expired 2%nat] /\
  data cleared_and_reused = [].
Proof. split; reflexivity. Qed.

(** ** More on the enumerations *)

Lemma strict_eq_true a b : strict_eq a b = true <-> a = b.
Proof.
  destruct a as [| |s], b as [| |s']; simpl; try (split; [done | done]);
    try (split; [discriminate | discriminate]).
  rewrite String.eqb_eq. split; [by intros -> | by intros [= ->]].
Qed.

Lemma existsb_strict_eq v (s : list (Nullable string)) :
  existsb (strict_eq v) s = true <-> v ∈ s.
Proof.
  rewrite existsb_exists. split.
  - intros (x & Hin & ->%strict_eq_true). by apply list_elem_of_In.
  - intros Hin. exists v. split; [by apply list_elem_of_In | by apply strict_eq_true].
Qed.

(** The set built by [set.add(entry.fromId)] over the copied values. *)
Lemma set_add_fold {A} (f : A -> Nullable string) (l : list A) acc :
  NoDup acc ->
  let s := fold_left (fun s r => set_add (f r) s) l acc in
  NoDup s /\ (forall v, v ∈ s <-> v ∈ acc \/ v ∈ f <$> l) /\
  (length s <= length acc + length l)%nat.
Proof.
  revert acc. induction l as [|a l IH]; intros acc Hnd; simpl.
  - split; [done|]. split; [|lia]. intros v. rewrite elem_of_nil. tauto.
  - assert (NoDup (set_add (f a) acc) /\
            (forall v, v ∈ set_add (f a) acc <-> v ∈ acc \/ v = f a) /\
            (length (set_add (f a) acc) <= S (length acc))%nat) as (Hnd' & Hin' & Hlen').
    { unfold set_add. destruct (existsb (strict_eq (f a)) acc) eqn:Hex.
      - apply existsb_strict_eq in Hex. split; [done|]. split; [|lia].
        intros v. split; [by left | by intros [?| ->]].
      - assert (f a ∉ acc) as Hnot.
        { intros Hin%existsb_strict_eq. congruence. }
        split; [|split].
        + apply NoDup_app. split; [done|]. split; [|apply NoDup_singleton].
          by intros v Hv ->%list_elem_of_singleton.
        + intros v. by rewrite elem_of_app, list_elem_of_singleton.
        + rewrite length_app. simpl. lia. }
    destruct (IH _ Hnd') as (Hnd2 & Hin2 & Hlen2). split; [done|]. split.
    + intros v. rewrite Hin2, Hin', elem_of_cons. tauto.
    + lia.
Qed.

Lemma drain_start {W A}
    (next : Generator A -> W -> IteratorResult A * Generator A)
    (snapshot : W -> list A) :
  (forall w, next SuspendedStart w = yield_star (snapshot w)) ->
  (forall rest w, next (SuspendedYield rest) w = yield_star rest) ->
  forall w n, (length (snapshot w) <= n)%nat ->
    drain next SuspendedStart w n = snapshot w.
Proof.
  intros Hstart Hnext w [|n] Hlen; unfold drain; simpl replicate.
  - destruct (snapshot w); [done | simpl in Hlen; lia].
  - rewrite (consume_start next snapshot Hstart Hnext).
    apply take_ge. rewrite length_replicate. lia.
Qed.

Lemma drain_getTrackers st n :
  (size st <= n)%nat ->
  drain getTrackers_next SuspendedStart st n = JsMap.values (data st).
Proof.
  intros Hn. apply (drain_start getTrackers_next (fun st => JsMap.values (data st)));
    [done | done |]. unfold JsMap.values. by rewrite length_map.
Qed.

(** No tracker object has [undefined] as its [fromId]. *)
Lemma step_fromId_defined st st' :
  step st st' ->
  (forall r tr, store st !! r = Some tr -> PoseTracker.fromId tr <> undefined) ->
  forall r tr, store st' !! r = Some tr -> PoseTracker.fromId tr <> undefined.
Proof.
  intros [now from pose st0 gid st1 Hseen|now st0|st0] Hinv r tr.
  - destruct (seen_returned _ _ _ _ _ _ Hseen) as [Hfrom [p ->]].
    destruct (JsMap.get (nsIdOf from (poseIdOf p)) (data st0)) as [r0|] eqn:Hget.
    + rewrite (seen_present _ _ _ r0) in Hseen by done. injection Hseen as _ <-.
      simpl. destruct (decide (r0 = r)) as [->|Hne].
      * rewrite list_lookup_alter_eq.
        destruct (store st0 !! r) as [tr0|] eqn:Htr0; [|done].
        intros [= <-]. simpl. by apply (Hinv r).
      * rewrite list_lookup_alter_ne by done. apply Hinv.
    + rewrite seen_absent in Hseen by done. injection Hseen as _ <-. simpl.
      intros [Htr|[_ Htr]]%lookup_app_Some; [by apply (Hinv r)|].
      apply list_lookup_singleton_Some in Htr as [_ <-]. simpl.
      by destruct from.
  - unfold tick, bind at 1, gets. simpl. rewrite for_of_expire. apply Hinv.
  - apply Hinv.
Qed.

Lemma reachable_fromId_defined st r tr :
  reachable st -> store st !! r = Some tr -> PoseTracker.fromId tr <> undefined.
Proof.
  intros [o Hrtc]. revert r tr. revert st Hrtc.
  apply (rtc_ind_r (fun st => forall r tr, store st !! r = Some tr ->
                                PoseTracker.fromId tr <> undefined)).
  - intros r tr H. simpl in H. by rewrite lookup_nil in H.
  - intros st1 st2 _ Hstep IH. by apply (step_fromId_defined st1 st2).
Qed.

(** X10: consumed to its end in a state of the registry,
    [getSenderIds()] yields no sender id twice, yields exactly the
    [fromId]s of the trackers in the map, and never yields [undefined]. *)
Theorem getSenderIds_unique st pulls :
  reachable st ->
  (size st <= pulls)%nat ->
  let ids := drain getSenderIds_next SuspendedStart st pulls in
  NoDup ids /\
  (forall v, v ∈ ids <-> exists r, r ∈ JsMap.values (data st) /\ fromId_of st r = v) /\
  undefined ∉ ids.
Proof.
  intros Hst Hpulls ids.
  destruct (set_add_fold (fromId_of st) (JsMap.values (data st)) [])
    as (Hnd & Hin & Hlen); [apply NoDup_nil_2|].
  assert (ids = fold_left (fun s r => set_add (fromId_of st r) s)
                  (JsMap.values (data st)) []) as ->.
  { apply (drain_start getSenderIds_next
             (fun st => fold_left (fun s r => set_add (fromId_of st r) s)
                          (JsMap.values (data st)) [])); [done | done |].
    simpl in Hlen. unfold size, JsMap.size in Hpulls. unfold JsMap.values in Hlen.
    rewrite length_map in Hlen. unfold JsMap.values. lia. }
  assert (forall v, v ∈ fold_left (fun s r => set_add (fromId_of st r) s)
                         (JsMap.values (data st)) []
                   <-> exists r, r ∈ JsMap.values (data st) /\ fromId_of st r = v) as Hiff.
  { intros v. rewrite Hin, elem_of_nil, list_elem_of_fmap. split.
    - intros [[]|(r & -> & Hr)]. by exists r.
    - intros (r & Hr & <-). right. by exists r. }
  split; [done|]. split; [done|].
  intros (r & Hr & Hund)%Hiff.
  apply list_elem_of_fmap in Hr as ([k r'] & -> & Hin').
  destruct (reachable_wf _ Hst) as [_ Hent _].
  destruct (Hent k r' Hin') as (tr & Htr & _).
  unfold fromId_of, deref in Hund. simpl in Hund. rewrite Htr in Hund. simpl in Hund.
  by apply (reachable_fromId_defined st r' tr Hst Htr).
Qed.

Lemma reachable_two_cameras_later : reachable two_cameras_later.
Proof.
  apply (reachable_step two_cameras); [apply reachable_seen_all|].
  apply (step_seen 20 (value "cam2") (value pose5_later) _ "cam2-5"). reflexivity.
Qed.

Lemma getSenderIds_unique_witness :
  let ids := drain getSenderIds_next SuspendedStart two_cameras_later 4 in
  NoDup ids /\
  (forall v, v ∈ ids <->
     exists r, r ∈ JsMap.values (data two_cameras_later) /\
               fromId_of two_cameras_later r = v) /\
  undefined ∉ ids.
Proof.
  apply (getSenderIds_unique two_cameras_later 4).
  - apply reachable_two_cameras_later.
  - vm_compute. lia.
Defined.

Lemma consume_getFromSender_replicate senderId st n rest :
  consume (getFromSender_next senderId) (SuspendedYield rest) (replicate n st)
  = take n (List.filter (fun r => strict_eq (fromId_of st r) senderId) rest).
Proof.
  revert rest. induction n as [|n IHn]; intros rest; [done|].
  induction rest as [|r rest IHrest]; [done|].
  simpl. simpl in IHrest.
  destruct (strict_eq (fromId_of st r) senderId); simpl.
  - by rewrite IHn.
  - exact IHrest.
Qed.

(** X11: consumed to its end in a state of the registry,
    [getFromSender(senderId)] yields the trackers of the map whose
    [fromId] is [senderId], all of them and no other, in map order. *)
Theorem getFromSender_filter senderId st pulls :
  (size st <= pulls)%nat ->
  let trackers := drain (getFromSender_next senderId) SuspendedStart st pulls in
  trackers = List.filter (fun r => strict_eq (fromId_of st r) senderId)
               (JsMap.values (data st)) /\
  (forall r, r ∈ trackers <-> r ∈ JsMap.values (data st) /\ fromId_of st r = senderId).
Proof.
  intros Hpulls trackers.
  assert (trackers = List.filter (fun r => strict_eq (fromId_of st r) senderId)
                       (JsMap.values (data st))) as ->.
  { unfold trackers, drain. destruct pulls as [|n].
    - unfold size, JsMap.size in Hpulls. destruct (data st); [done | simpl in Hpulls; lia].
    - change (consume (getFromSender_next senderId) SuspendedStart (replicate (S n) st))
        with (consume (getFromSender_next senderId)
                (SuspendedYield (JsMap.values (data st))) (replicate (S n) st)).
      rewrite consume_getFromSender_replicate. apply take_ge.
      etrans; [apply filter_length_le|]. unfold JsMap.values. rewrite length_map.
      unfold size, JsMap.size in Hpulls. lia. }
  split; [done|]. intros r.
  rewrite list_elem_of_In, filter_In, <- list_elem_of_In, strict_eq_true. done.
Qed.

Lemma getFromSender_filter_witness :
  let trackers := drain (getFromSender_next (value "cam2")) SuspendedStart two_cameras 3 in
  trackers = List.filter (fun r => strict_eq (fromId_of two_cameras r) (value "cam2"))
               (JsMap.values (data two_cameras)) /\
  (forall r, r ∈ trackers <->
     r ∈ JsMap.values (data two_cameras) /\ fromId_of two_cameras r = value "cam2").
Proof.
  apply (getFromSender_filter (value "cam2") two_cameras 3).
  vm_compute. lia.
Defined.

Lemma find_first {A} (f : A -> bool) (l : list A) a :
  List.find f l = Some a ->
  f a = true /\ exists l1 l2, l = l1 ++ a :: l2 /\ forall b, b ∈ l1 -> f b = false.
Proof.
  induction l as [|b l IH]; simpl; [done|].
  destruct (f b) eqn:Hb.
  - intros [= ->]. split; [done|]. exists [], l. split; [done|].
    intros b Hin. by apply elem_of_nil in Hin.
  - intros Hfind. destruct (IH Hfind) as (Ha & l1 & l2 & -> & Hl1).
    split; [done|]. exists (b :: l1), l2. split; [done|].
    intros b' [->|Hin]%elem_of_cons; [done | by apply Hl1].
Qed.

Lemma poseId_test st pid r :
  from_option (fun tr => String.eqb (PoseTracker.poseId tr) pid) false (deref st r) = true
  <-> poseId_of st r = Some pid.
Proof.
  unfold poseId_of. destruct (deref st r) as [tr|]; simpl; [|done].
  rewrite String.eqb_eq. split; [by intros -> | by intros [= ->]].
Qed.

(** X12: [getTrackerByPoseId(id)] is absent exactly when no tracker in the
    map has that [poseId]; otherwise it is the first tracker of the map,
    in order of registration, that has it, and [getValueByPoseId(id)] is
    the [last] of that tracker, which is present. *)
Theorem getTrackerByPoseId_first pid st :
  reachable st ->
  (getTrackerByPoseId pid st = None <->
     forall r, r ∈ JsMap.values (data st) -> poseId_of st r <> Some pid) /\
  (forall r, getTrackerByPoseId pid st = Some r ->
     poseId_of st r = Some pid /\
     (exists before after,
        JsMap.values (data st) = before ++ r :: after /\
        forall r', r' ∈ before -> poseId_of st r' <> Some pid) /\
     exists p, getValueByPoseId pid st = Some p /\ last_of st r = Some p).
Proof.
  intros [_ Hent _]%reachable_wf. unfold getValueByPoseId, getTrackerByPoseId. split.
  - split.
    + intros Hnone r Hr%list_elem_of_In Hpid%poseId_test.
      pose proof (find_none _ _ Hnone r Hr) as Hf. simpl in Hf. congruence.
    + intros Hall.
      destruct (List.find _ (JsMap.values (data st))) as [r|] eqn:Hfind; [|done].
      apply find_some in Hfind as [Hr Hf]. apply poseId_test in Hf.
      exfalso. by apply (Hall r), Hf; apply list_elem_of_In.
  - intros r Hfind. rewrite Hfind. simpl.
    destruct (find_first _ _ _ Hfind) as (Hf & l1 & l2 & Hsplit & Hl1).
    apply poseId_test in Hf. split; [done|]. split.
    + exists l1, l2. split; [done|]. intros r' Hr' Hpid%poseId_test.
      specialize (Hl1 r' Hr'). simpl in Hl1. congruence.
    + assert (r ∈ JsMap.values (data st)) as Hr.
      { rewrite Hsplit. apply elem_of_app. right. apply elem_of_cons. by left. }
      apply list_elem_of_fmap in Hr as ([k r'] & -> & Hin).
      destruct (Hent k r' Hin) as (tr & Htr & _ & [p Hp]).
      exists p. unfold last_of, deref. simpl. by rewrite Htr.
Qed.

Lemma getTrackerByPoseId_first_witness :
  (getTrackerByPoseId "5" two_cameras = None <->
     forall r, r ∈ JsMap.values (data two_cameras) ->
               poseId_of two_cameras r <> Some "5") /\
  (forall r, getTrackerByPoseId "5" two_cameras = Some r ->
     poseId_of two_cameras r = Some "5" /\
     (exists before after,
        JsMap.values (data two_cameras) = before ++ r :: after /\
        forall r', r' ∈ before -> poseId_of two_cameras r' <> Some "5") /\
     exists p, getValueByPoseId "5" two_cameras = Some p /\
               last_of two_cameras r = Some p).
Proof.
  apply (getTrackerByPoseId_first "5" two_cameras).
  apply reachable_seen_all.
Defined.

(** X13: consumed to its end in a state of the registry, [getValues()]
    yields the [last] of each tracker of the map, in map order; each is a
    pose, none is [undefined]; and [getValuesByAge()] yields the same
    poses in another order. *)
Theorem getValues_defined now st pulls :
  reachable st ->
  (size st <= pulls)%nat ->
  let values := drain getValues_next SuspendedStart st pulls in
  values = last_of st <$> JsMap.values (data st) /\
  Forall is_Some values /\
  drain getValuesByAge_next SuspendedStart (now, st) pulls ≡ₚ values.
Proof.
  intros Hst Hpulls values.
  assert (values = last_of st <$> JsMap.values (data st)) as ->.
  { unfold values, drain. rewrite consume_getValues.
    fold (drain getTrackers_next SuspendedStart st pulls).
    rewrite drain_getTrackers by done.
    apply zip_with_replicate_r. unfold JsMap.values. rewrite length_map.
    exact Hpulls. }
  split; [done|]. split.
  - apply Forall_forall. intros v (r & -> & Hr)%list_elem_of_fmap.
    apply list_elem_of_fmap in Hr as ([k r'] & -> & Hin).
    destruct (reachable_wf _ Hst) as [_ Hent _].
    destruct (Hent k r' Hin) as (tr & Htr & _ & Hlast).
    unfold last_of, deref. simpl. by rewrite Htr.
  - unfold drain. rewrite consume_getValuesByAge.
    fold (drain getTrackersByAge_next SuspendedStart (now, st) pulls).
    rewrite (drain_start getTrackersByAge_next
               (fun w => array_sort (by_elapsed w.1 w.2) (JsMap.values (data w.2))));
      [|done|done|].
    + simpl. rewrite zip_with_replicate_r.
      * apply fmap_Permutation, (array_sort_perm (elapsed_of now st)).
      * rewrite (Permutation_length (array_sort_perm (elapsed_of now st) _)).
        unfold JsMap.values. rewrite length_map. exact Hpulls.
    + simpl. rewrite (Permutation_length (array_sort_perm (elapsed_of now st) _)).
      unfold JsMap.values. rewrite length_map. exact Hpulls.
Qed.

Lemma getValues_defined_witness :
  let values := drain getValues_next SuspendedStart two_cameras_later 2 in
  values = last_of two_cameras_later <$> JsMap.values (data two_cameras_later) /\
  Forall is_Some values /\
  drain getValuesByAge_next SuspendedStart (30%Z, two_cameras_later) 2 ≡ₚ values.
Proof.
  apply (getValues_defined 30 two_cameras_later 2).
  - apply reachable_two_cameras_later.
  - vm_compute. lia.
Defined.

(** X14: in every state of a registry [getGuids()] yields as many guids
    as [size], and the guid at each position leads, by
    [getTrackerByGuid], to the tracker [getTrackers()] yields at that
    position. *)
Theorem guids_lead_to_trackers st pulls :
  reachable st ->
  (size st <= pulls)%nat ->
  length (getGuids st) = size st /\
  (fun g => getTrackerByGuid g st) <$> getGuids st
  = Some <$> drain getTrackers_next SuspendedStart st pulls.
Proof.
  intros Hwf%reachable_wf Hpulls.
  rewrite (getGuids_keys st Hwf), drain_getTrackers by done.
  split; [apply length_fmap|].
  destruct Hwf as [Hnd _ _]. unfold getTrackerByGuid, JsMap.keys, JsMap.values.
  assert (forall l : list (string * nat), (forall e, e ∈ l -> e ∈ data st) ->
            (fun g => JsMap.get g (data st)) <$> (fst <$> l) = Some <$> (snd <$> l))
    as Hall.
  { induction l as [|[k r] l IH]; intros Hsub; [done|].
    rewrite !fmap_cons. f_equal.
    - simpl. apply elem_NoDup_get; [done|]. apply Hsub, elem_of_cons. by left.
    - apply IH. intros e He. apply Hsub, elem_of_cons. by right. }
  by apply Hall.
Qed.

Lemma guids_lead_to_trackers_witness :
  length (getGuids two_cameras) = size two_cameras /\
  (fun g => getTrackerByGuid g two_cameras) <$> getGuids two_cameras
  = Some <$> drain getTrackers_next SuspendedStart two_cameras 2.
Proof.
  apply (guids_lead_to_trackers two_cameras 2).
  - apply reachable_seen_all.
  - vm_compute. lia.
Defined.

(** ** Options and pose ids *)

Lemma step_options st st' : step st st' -> options st' = options st.
Proof.
  intros [now from pose st0 gid st1 Hseen|now st0|st0].
  - change st1 with (Returned gid, st1).2. rewrite <- Hseen. apply seen_options.
  - unfold tick, bind at 1, gets. simpl. by rewrite for_of_expire.
  - done.
Qed.

(** X15: no call, scan or clear changes the options: in every state
    reached from [new PosesTracker(o)] they are the defaults overridden by
    [o], so [maxAgeMs] is 10000 unless [o] gives it. *)
Theorem options_fixed o st :
  rtc step (constructor o) st ->
  options st = spread_options o /\
  (p_maxAgeMs o = None -> maxAgeMs (options st) = 10000) /\
  (forall v, p_maxAgeMs o = Some v -> maxAgeMs (options st) = v).
Proof.
  intros Hrtc.
  assert (options st = spread_options o) as ->.
  { revert st Hrtc. apply rtc_ind_r; [done|].
    intros st1 st2 _ Hstep IH. by rewrite (step_options _ _ Hstep). }
  split; [done|]. split.
  - intros Hnone. simpl. by rewrite Hnone.
  - intros v Hsome. simpl. by rewrite Hsome.
Qed.

Lemma options_fixed_witness :
  let o := {| p_maxAgeMs := Some 1000; p_resetAfterSamples := None;
              p_sampleLimit := None; p_storeIntermediate := None |} in
  options (tick 2000 short_lived).2 = spread_options o /\
  (p_maxAgeMs o = None -> maxAgeMs (options (tick 2000 short_lived).2) = 10000) /\
  (forall v, p_maxAgeMs o = Some v -> maxAgeMs (options (tick 2000 short_lived).2) = v).
Proof.
  apply (options_fixed
           {| p_maxAgeMs := Some 1000; p_resetAfterSamples := None;
              p_sampleLimit := None; p_storeIntermediate := None |}
           (tick 2000 short_lived).2).
  apply (rtc_l _ _ short_lived).
  - apply (step_seen 0 (value "cam1") (value pose5) _ "cam1-5"). reflexivity.
  - apply rtc_once, step_tick.
Defined.

(** X16: a pose without an id, or with id [null], is tracked as pose 0:
    after [seen(from, {id: 0})], a [seen] from the same sender with such a
    pose returns the same guid, "from-0", dispatches nothing, leaves
    [size] as it is, and its pose becomes the [last] of that tracker. *)
Theorem seen_without_id now1 now2 from p0 p st :
  reachable st ->
  is_undefined from = false ->
  id p0 = value (IdNum 0) ->
  id p = undefined \/ id p = null ->
  exists st1 st2,
    seen now1 from (value p0) st = (Returned (string_of_from from +:+ "-0"), st1) /\
    seen now2 from (value p) st1 = (Returned (string_of_from from +:+ "-0"), st2) /\
    events st2 = events st1 /\
    size st2 = size st1 /\
    getValueByGuid (string_of_from from +:+ "-0") st2 = Some p.
Proof.
  intros Hwf%reachable_wf Hfrom Hp0 Hp.
  assert (poseIdOf p0 = "0") as Hid0 by (unfold poseIdOf; by rewrite Hp0).
  assert (poseIdOf p = "0") as Hid by (unfold poseIdOf; by destruct Hp as [-> | ->]).
  assert (string_of_from from +:+ "-0" = nsIdOf from (poseIdOf p0)) as Hgid.
  { unfold nsIdOf. by rewrite Hid0. }
  rewrite Hgid.
  assert (exists st1, seen now1 from (value p0) st
                      = (Returned (nsIdOf from (poseIdOf p0)), st1)) as [st1 Hseen1].
  { destruct (JsMap.get (nsIdOf from (poseIdOf p0)) (data st)) as [r|] eqn:Hget.
    - rewrite (seen_present _ _ _ r) by done. by eexists.
    - rewrite seen_absent by done. by eexists. }
  destruct (seen_registers _ _ _ _ _ _ Hwf Hseen1) as (r & tr & Hget1 & Htr1 & _).
  exists st1, (st_updated now2 p r st1).
  split; [done|]. split.
  { replace (nsIdOf from (poseIdOf p0)) with (nsIdOf from (poseIdOf p))
      by (by rewrite Hid, Hid0).
    apply seen_present; [done|]. by rewrite Hid, <- Hid0. }
  split; [done|]. split; [done|].
  unfold getValueByGuid, last_of, deref. simpl. rewrite Hget1.
  by rewrite list_lookup_alter_eq, Htr1.
Qed.

Lemma seen_without_id_witness :
  exists st1 st2,
    seen 3 (value "cam1") (value (pose_with_id (value (IdNum 0)))) two_cameras
      = (Returned ("cam1" +:+ "-0"), st1) /\
    seen 4 (value "cam1") (value pose_no_id) st1 = (Returned ("cam1" +:+ "-0"), st2) /\
    events st2 = events st1 /\
    size st2 = size st1 /\
    getValueByGuid ("cam1" +:+ "-0") st2 = Some pose_no_id.
Proof.
  apply (seen_without_id 3 4 (value "cam1") (pose_with_id (value (IdNum 0)))
           pose_no_id two_cameras).
  - apply reachable_seen_all.
  - reflexivity.
  - reflexivity.
  - left. reflexivity.
Defined.

Lemma to_int_proper n :
  Z.to_int n <> Decimal.Pos Decimal.Nil /\ Z.to_int n <> Decimal.Neg Decimal.Nil.
Proof.
  destruct n as [|q|q]; simpl; split; try discriminate;
    intros [= H]; by apply (DecimalPos.Unsigned.to_uint_nonnil q).
Qed.

(** Printing an integer and reading the numeral back gives the integer. *)
Lemma toString_IdNum_inj n m : toString (IdNum n) = toString (IdNum m) -> n = m.
Proof.
  simpl. intros H.
  destruct (to_int_proper n) as [Hn1 Hn2], (to_int_proper m) as [Hm1 Hm2].
  pose proof (NilZero.isi _ Hn1 Hn2) as Hn. pose proof (NilZero.isi _ Hm1 Hm2) as Hm.
  rewrite H, Hm in Hn. injection Hn as Hn.
  rewrite <- (DecimalZ.of_to n), <- (DecimalZ.of_to m). by rewrite Hn.
Qed.

Lemma append_cancel_l (s t t' : string) : s +:+ t = s +:+ t' -> t = t'.
Proof.
  induction s as [|c s IH]; [done|].
  rewrite !append_cons. intros [= H]. by apply IH.
Qed.

(** X17: for one sender, two poses with integer ids get the same guid
    exactly when the ids are equal: distinct integer ids of one sender
    never share a tracker. *)
Theorem integer_ids_distinct from p1 p2 n m :
  id p1 = value (IdNum n) ->
  id p2 = value (IdNum m) ->
  (nsIdOf from (poseIdOf p1) = nsIdOf from (poseIdOf p2) <-> n = m).
Proof.
  intros H1 H2. unfold nsIdOf, poseIdOf. rewrite H1, H2. simpl nullish. split.
  - intros Heq. apply toString_IdNum_inj.
    by apply (append_cancel_l "-"), (append_cancel_l (string_of_from from)).
  - by intros ->.
Qed.

Lemma integer_ids_distinct_witness :
  nsIdOf (value "cam1") (poseIdOf (pose_with_id (value (IdNum 5))))
  = nsIdOf (value "cam1") (poseIdOf (pose_with_id (value (IdNum 15))))
  <-> 5 = 15.
Proof.
  apply (integer_ids_distinct (value "cam1") (pose_with_id (value (IdNum 5)))
           (pose_with_id (value (IdNum 15))) 5 15); reflexivity.
Defined.

(** ** The drifting-things sketch *)

Section ThingsFacts.
Context {num : Type} (add : num -> num -> num) (gt : num -> num -> bool).
Context (settings : @Things.Settings num).

Lemma things_step st st' :
  Things.step add gt settings st st' ->
  (length (Things.things st) <= Things.max settings)%nat ->
  (length (Things.things st') <= Things.max settings)%nat.
Proof.
  intros [state|t state|b state] Hle; simpl.
  - by rewrite length_map.
  - unfold Things.addTimer.
    destruct (Nat.leb_spec (Things.max settings) (length (Things.things state)));
      simpl; [done|]. rewrite length_app. simpl. lia.
  - done.
Qed.

Lemma things_step_ticks st st' :
  Things.step add gt settings st st' ->
  (Things.ticks st <= Things.ticks st')%Z /\
  (length (Things.things st) <= length (Things.things st'))%nat.
Proof.
  intros [state|t state|b state]; simpl.
  - rewrite length_map. lia.
  - unfold Things.addTimer.
    destruct (Things.max settings <=? length (Things.things state))%nat; simpl;
      rewrite ?length_app; lia.
  - lia.
Qed.
End ThingsFacts.

(** X18: while the sketch runs, by frames, timer callbacks and resizes
    in any order, the number of things never exceeds [settings.max] once
    it is at most that, as it is at the start with no thing; and it never
    decreases. *)
Theorem things_bounded {num : Type} (add : num -> num -> num)
    (gt : num -> num -> bool) (settings : Things.Settings) st st' :
  rtc (Things.step add gt settings) st st' ->
  (length (Things.things st) <= Things.max settings)%nat ->
  (length (Things.things st) <= length (Things.things st'))%nat /\
  (length (Things.things st') <= Things.max settings)%nat.
Proof.
  induction 1 as [st|st1 st2 st3 Hstep _ IH]; intros Hle; [done|].
  destruct (IH (things_step add gt settings _ _ Hstep Hle)) as [Hge Hmax].
  split; [|done]. destruct (things_step_ticks add gt settings _ _ Hstep). lia.
Qed.

Lemma things_bounded_witness :
  let st := q_state [q_thing 1 1] in
  let st' := Things.addTimer q_settings (q_thing 0 0) (Things.update Qplus q_gt q_settings st) in
  (length (Things.things st) <= length (Things.things st'))%nat /\
  (length (Things.things st') <= Things.max q_settings)%nat.
Proof.
  apply (things_bounded Qplus q_gt q_settings (q_state [q_thing 1 1])
           (Things.addTimer q_settings (q_thing 0 0)
              (Things.update Qplus q_gt q_settings (q_state [q_thing 1 1])))).
  - apply (rtc_l _ _ (Things.update Qplus q_gt q_settings (q_state [q_thing 1 1]))).
    + apply Things.step_update.
    + apply rtc_once. apply Things.step_addTimer.
  - vm_compute. lia.
Defined.

(** X19: when [edgeMin] is not greater than [edgeMax], [updateThing]
    returns a thing neither coordinate of which is greater than
    [edgeMax]; when [y] passes the edge both coordinates are reset to
    [edgeMin]; the other fields are those of the argument. *)
Theorem updateThing_wraps {num : Type} (add : num -> num -> num)
    (gt : num -> num -> bool) (settings : Things.Settings) t :
  gt (Things.edgeMin settings) (Things.edgeMax settings) = false ->
  let t' := Things.updateThing add gt settings t in
  gt (Things.x t') (Things.edgeMax settings) = false /\
  gt (Things.y t') (Things.edgeMax settings) = false /\
  (gt (add (Things.y t) (Things.ySpeed settings)) (Things.edgeMax settings) = true ->
     Things.x t' = Things.edgeMin settings /\ Things.y t' = Things.edgeMin settings) /\
  Things.scale t' = Things.scale t /\ Things.msg t' = Things.msg t /\
  Things.created t' = Things.created t.
Proof.
  intros Hedge. unfold Things.updateThing. simpl.
  destruct (gt (add (Things.y t) (Things.ySpeed settings)) (Things.edgeMax settings))
    eqn:Hy; simpl.
  - done.
  - destruct (gt (add (Things.x t) (Things.xSpeed settings)) (Things.edgeMax settings))
      eqn:Hx; simpl; done.
Qed.

Lemma updateThing_wraps_witness :
  let t' := Things.updateThing Qplus q_gt q_settings (q_thing (109 # 100) (1 # 2)) in
  q_gt (Things.x t') (Things.edgeMax q_settings) = false /\
  q_gt (Things.y t') (Things.edgeMax q_settings) = false /\
  (q_gt (Qplus (Things.y (q_thing (109 # 100) (1 # 2))) (Things.ySpeed q_settings))
        (Things.edgeMax q_settings) = true ->
     Things.x t' = Things.edgeMin q_settings /\ Things.y t' = Things.edgeMin q_settings) /\
  Things.scale t' = Things.scale (q_thing (109 # 100) (1 # 2)) /\
  Things.msg t' = Things.msg (q_thing (109 # 100) (1 # 2)) /\
  Things.created t' = Things.created (q_thing (109 # 100) (1 # 2)).
Proof.
  apply (updateThing_wraps Qplus q_gt q_settings (q_thing (109 # 100) (1 # 2))).
  reflexivity.
Defined.

(** A thing at x = 1.09 does not pass the edge 1.1 in one frame; at
    x = 1.095 it does and restarts at -0.1. *)
Example updateThing_edge :
  Things.x (Things.updateThing Qplus q_gt q_settings (q_thing (109 # 100) (1 # 2)))
    = Qplus (109 # 100) (1 # 100) /\
  Things.x (Things.updateThing Qplus q_gt q_settings (q_thing (1095 # 1000) (1 # 2)))
    = (-1) # 10.
Proof. split; reflexivity. Qed.
